(** * Worker side of the cluster protocol (lib/internal/cluster/child.js)

    A shallow embedding of the worker half of the cluster protocol: the
    handle registry [handles], the listener index allocator [indexes], the
    shared and round-robin reply paths, the connection router and the
    disconnect / destroy sequences.

    JavaScript objects that are mutated through several references (the
    handles handed to listeners) live in an explicit [heap]; every call
    that leaves the module (sendHelper, process.disconnect, process.exit,
    a listener callback, a native or owner close, a listener's
    onconnection) is recorded, in order, on the [trace], and so is every
    completion of a close that calls back into a drain. *)

From Stdlib Require Import ZArith Lia.
From stdpp Require Import base gmap strings list fin_maps pretty.

Open Scope string_scope.
Open Scope nat_scope.
Open Scope list_scope.

(** ** Values *)

(** The few JavaScript values that reach this module from option bags and
    replies. *)
Inductive JsVal :=
| JUndefined
| JNull
| JNum (z : Z)
| JStr (s : string).

#[global] Instance JsVal_eq_dec : EqDecision JsVal.
Proof. solve_decision. Defined.

(** The string ArrayPrototypeJoin gives an element: empty for undefined
    and null, the decimal numeral for an integer. *)
Definition join_elem (v : JsVal) : string :=
  match v with
  | JUndefined | JNull => ""
  | JNum z => pretty z
  | JStr s => s
  end.

Definition Key := string.
Definition HandleId := nat.
Definition OwnerId := nat.

(** A plain object such as a socket name: own enumerable properties. *)
Abbreviation Obj := (gmap string JsVal).


(** ** The listener index allocator *)

(** [{ nextIndex, set }] of the source. Indices are JavaScript numbers in
    their exact integer range. *)
Record IndexSet := mkIndexSet { nextIndex : nat; set : gset nat }.

Abbreviation Indexes := (gmap string IndexSet).

(** Lines 77 to 84 of [cluster._getServer]: look the tuple up, create its
    bookkeeping on first use, take [nextIndex++] and record it live. *)
Definition allocateIndex (indexesKey : string) (ix : Indexes) : nat * Indexes :=
  let indexSet :=
    match ix !! indexesKey with
    | None => mkIndexSet 0 ∅
    | Some indexSet => indexSet
    end in
  let index := nextIndex indexSet in
  (index, <[indexesKey := mkIndexSet (S index) ({[index]} ∪ set indexSet)]> ix).

Definition removeIndexesKey (indexesKey : string) (index : nat) (ix : Indexes) : Indexes :=
  match ix !! indexesKey with
  | None => ix
  | Some indexSet =>
      let set' := set indexSet ∖ {[index]} in
      if decide (size set' = 0)
      then delete indexesKey ix
      else <[indexesKey := mkIndexSet (nextIndex indexSet) set']> ix
  end.

(** [index] is live for the tuple [indexesKey]. *)
Definition live (indexesKey : string) (index : nat) (ix : Indexes) : Prop :=
  ∃ indexSet, ix !! indexesKey = Some indexSet ∧ index ∈ set indexSet.

(** The operations that reach the allocator, in program order: a
    [_getServer] call on a tuple, and the [removeIndexesKey] made by the
    close of a handle that captured [(indexesKey, index)]. *)
Inductive AllocOp :=
| Query (indexesKey : string)
| Release (indexesKey : string) (index : nat).

#[global] Instance AllocOp_eq_dec : EqDecision AllocOp.
Proof. solve_decision. Defined.

Definition alloc_step (op : AllocOp) (ix : Indexes) : Indexes :=
  match op with
  | Query k => snd (allocateIndex k ix)
  | Release k i => removeIndexesKey k i ix
  end.

Definition next_of (indexesKey : string) (ix : Indexes) : nat :=
  match ix !! indexesKey with
  | None => 0
  | Some indexSet => nextIndex indexSet
  end.

(** ** Handles, messages and the worker's state *)

(** What [handle.close] is bound to on a handle that came from the
    primary: the native close, or the wrapper [shared] installs around the
    previous binding. *)
Inductive CloseFn :=
| NativeClose
| SharedClose (key : Key) (indexesKey : string) (index : nat) (orig : CloseFn).

(** A handle is either a real one (shared listen socket) or the faux
    handle of [rr], whose closure holds the mutable [key] ([None] is
    undefined), the captured [(indexesKey, index)] and the reply's
    [sockname]. *)
Inductive HandleBody :=
| Real (close : CloseFn)
| Faux (key : option Key) (indexesKey : string) (index : nat) (sockname : option Obj).

(** [owner] is [handle[owner_symbol]] and [onconnection] tells whether the
    listener installed its accept hook; both are set by the listener, not
    by this module. *)
Record HandleObj := mkHandle {
  body : HandleBody;
  owner : option OwnerId;
  onconnection_hook : bool;
}.

Record ServerOptions := mkOptions {
  address : JsVal;
  port : Z;
  addressType : JsVal;
  fd : JsVal;
}.

(** [obj], a net.Server or dgram.Socket, as far as [_getServer] looks at
    it: the value of [_getServerData()] when the method exists, and
    whether [_setServerData] is a function. *)
Record ServerObj := mkServerObj {
  _getServerData : option JsVal;
  _setServerData : bool;
}.

Inductive OutMessage :=
| MsgOnline
| MsgQueryServer (index : nat) (data : JsVal) (address : JsVal) (options : ServerOptions)
| MsgListening (index : nat) (data : JsVal) (address : JsVal) (port : Z) (options : ServerOptions)
| MsgClose (key : Key)
| MsgAck (seq : Z) (accepted : bool)
| MsgExitedAfterDisconnect.

(** The continuation given to [send]. *)
Inductive SendCallback :=
| CbQueryReply (obj : ServerObj) (indexesKey : string) (index : nat)
| CbProcessDisconnect.

Inductive Event :=
| EvSend (message : OutMessage) (cb : option SendCallback)
| EvOwnerClose (o : OwnerId) (h : HandleId)
| EvNativeClose (h : HandleId) (with_callback : bool)
| EvCloseDone (h : HandleId)
| EvDeliver (h : HandleId) (connection : HandleId)
| EvCallback (errno : Z) (h : option HandleId)
| EvSetServerData (data : JsVal)
| EvProcessDisconnect
| EvProcessExit (code : Z)
| EvOnceDisconnectExit
| EvWorkerEmit (event : string).

#[global] Instance ServerOptions_eq_dec : EqDecision ServerOptions.
Proof. solve_decision. Defined.
#[global] Instance ServerObj_eq_dec : EqDecision ServerObj.
Proof. solve_decision. Defined.
#[global] Instance OutMessage_eq_dec : EqDecision OutMessage.
Proof. solve_decision. Defined.
#[global] Instance SendCallback_eq_dec : EqDecision SendCallback.
Proof. solve_decision. Defined.
#[global] Instance Event_eq_dec : EqDecision Event.
Proof. solve_decision. Defined.

(** The module's globals ([handles], [indexes]), the objects they point
    to, the parts of [cluster.worker] and [process] the module reads and
    writes, and the calls made so far. [handles] keeps the insertion
    order of the SafeMap. *)
Record State := mkState {
  handles : list (Key * HandleId);
  indexes : Indexes;
  heap : gmap HandleId HandleObj;
  state : string;
  exitedAfterDisconnect : bool;
  connected : bool;
  trace : list Event;
}.

Definition with_handles (v : list (Key * HandleId)) (s : State) : State :=
  mkState v (indexes s) (heap s) (state s) (exitedAfterDisconnect s) (connected s) (trace s).
Definition with_indexes (v : Indexes) (s : State) : State :=
  mkState (handles s) v (heap s) (state s) (exitedAfterDisconnect s) (connected s) (trace s).
Definition with_heap (v : gmap HandleId HandleObj) (s : State) : State :=
  mkState (handles s) (indexes s) v (state s) (exitedAfterDisconnect s) (connected s) (trace s).
Definition with_state (v : string) (s : State) : State :=
  mkState (handles s) (indexes s) (heap s) v (exitedAfterDisconnect s) (connected s) (trace s).
Definition with_exitedAfterDisconnect (v : bool) (s : State) : State :=
  mkState (handles s) (indexes s) (heap s) (state s) v (connected s) (trace s).
Definition emit (e : Event) (s : State) : State :=
  mkState (handles s) (indexes s) (heap s) (state s) (exitedAfterDisconnect s) (connected s)
          (trace s ++ [e]).

(** *** The SafeMap [handles] *)

Definition handles_get (key : Key) (m : list (Key * HandleId)) : option HandleId :=
  snd <$> find (λ e, bool_decide (fst e = key)) m.

Definition handles_has (key : Key) (m : list (Key * HandleId)) : bool :=
  bool_decide (is_Some (handles_get key m)).

Definition handles_delete (key : Key) (m : list (Key * HandleId)) : list (Key * HandleId) :=
  filter (λ e, fst e ≠ key) m.

(** [Map.prototype.set]: an existing key keeps its place, a new one goes
    last. *)
Fixpoint handles_set (key : Key) (h : HandleId) (m : list (Key * HandleId)) : list (Key * HandleId) :=
  match m with
  | [] => [(key, h)]
  | e :: rest => if decide (fst e = key) then (key, h) :: rest else e :: handles_set key h rest
  end.

(** Modelled from the spec: sendHelper of internal/cluster/utils is not
    among the sources; [send] hands it the message and the optional
    continuation, which is what the trace records. *)
Definition send (message : OutMessage) (cb : option SendCallback) (s : State) : State :=
  emit (EvSend message cb) s.

(** A function either returns or throws; the state is the one reached. *)
Inductive Error := ERR_INTERNAL_ASSERTION | TypeError.

Inductive Outcome :=
| Returned (s : State)
| Thrown (e : Error) (s : State).

Definition final (o : Outcome) : State :=
  match o with Returned s | Thrown _ s => s end.

Definition throws (o : Outcome) : bool :=
  match o with Returned _ => false | Thrown _ _ => true end.

(** ** Closing a handle *)

(** The body of the wrapper installed by [shared], unfolded down to the
    native close it delegates to with the same [arguments];
    [with_callback] tells whether the caller passed a completion
    callback. *)
Fixpoint run_close (c : CloseFn) (h : HandleId) (with_callback : bool) (s : State) : State :=
  match c with
  | NativeClose => emit (EvNativeClose h with_callback) s
  | SharedClose key indexesKey index orig =>
      let s1 := send (MsgClose key) None s in
      let s2 := with_handles (handles_delete key (handles s1)) s1 in
      let s3 := with_indexes (removeIndexesKey indexesKey index (indexes s2)) s2 in
      run_close orig h with_callback s3
  end.

(** [close] of the faux handle [h]. It declares no parameter: whatever
    the caller passes is dropped. *)
Definition faux_close (h : HandleId) (s : State) : State :=
  match heap s !! h with
  | Some (mkHandle (Faux (Some key) indexesKey index sockname) o hook) =>
      let s1 := send (MsgClose key) None s in
      let s2 := with_handles (handles_delete key (handles s1)) s1 in
      let s3 := with_indexes (removeIndexesKey indexesKey index (indexes s2)) s2 in
      with_heap (<[h := mkHandle (Faux None indexesKey index sockname) o hook]> (heap s3)) s3
  | _ => s
  end.

(** [handle.close(...)] on the object [h]. The boolean tells whether a
    completion callback was handed on to a native close. *)
Definition handle_close (h : HandleId) (with_callback : bool) (s : State) : State * bool :=
  match heap s !! h with
  | Some (mkHandle (Real c) _ _) => (run_close c h with_callback s, with_callback)
  | Some (mkHandle (Faux _ _ _ _) _ _) => (faux_close h s, false)
  | None => (s, false)
  end.



(** [listen(backlog)] of a faux handle. *)
Definition listen (backlog : Z) : Z := 0%Z.

(** ** Registration replies *)

Record Reply := mkReply {
  reply_errno : Z;
  reply_key : Key;
  reply_sockname : option Obj;
  reply_data : JsVal;
}.

Definition close_binding (o : option HandleObj) : CloseFn :=
  match o with
  | Some (mkHandle (Real c) _ _) => c
  | _ => NativeClose
  end.

(** Shared listen socket. [h] is the handle object that came with the
    reply. *)
Definition shared (message : Reply) (h : HandleId) (indexesKey : string) (index : nat)
    (s : State) : Outcome :=
  let key := reply_key message in
  let close := close_binding (heap s !! h) in
  let patched :=
    match heap s !! h with
    | Some obj => mkHandle (Real (SharedClose key indexesKey index close)) (owner obj) (onconnection_hook obj)
    | None => mkHandle (Real (SharedClose key indexesKey index close)) None false
    end in
  let s1 := with_heap (<[h := patched]> (heap s)) s in
  if handles_has key (handles s1) then Thrown ERR_INTERNAL_ASSERTION s1
  else
    let s2 := with_handles (handles_set key h (handles s1)) s1 in
    Returned (emit (EvCallback (reply_errno message) (Some h)) s2).

(** Round-robin. The faux handle is a new object. *)
Definition rr (message : Reply) (indexesKey : string) (index : nat) (s : State) : Outcome :=
  if decide (reply_errno message ≠ 0%Z)
  then Returned (emit (EvCallback (reply_errno message) None) s)
  else
    let key := reply_key message in
    let h := fresh (dom (heap s)) in
    let handle := mkHandle (Faux (Some key) indexesKey index (reply_sockname message)) None false in
    let s1 := with_heap (<[h := handle]> (heap s)) s in
    if handles_has key (handles s1) then Thrown ERR_INTERNAL_ASSERTION s1
    else
      let s2 := with_handles (handles_set key h (handles s1)) s1 in
      Returned (emit (EvCallback 0 (Some h)) s2).

(** The continuation [_getServer] gives to [send], run on the primary's
    reply; [handle] is the handle object attached to it, if any. *)
Definition on_query_reply (obj : ServerObj) (indexesKey : string) (index : nat)
    (reply : Reply) (handle : option HandleId) (s : State) : Outcome :=
  let s1 := if _setServerData obj then emit (EvSetServerData (reply_data reply)) s else s in
  match handle with
  | Some h => shared reply h indexesKey index s1
  | None => rr reply indexesKey index s1
  end.

(** ** Registering a listener *)

(** Modelled from the spec: [path.resolve] and [process.platform] belong
    to the runtime, not to the sources at hand; they are taken as given. *)
Record Env := mkEnv {
  platform : string;
  path_resolve : string → string;
}.

Definition resolved_address (env : Env) (options : ServerOptions) : JsVal :=
  match address options with
  | JStr a =>
      if (port options <? 0)%Z && negb (String.eqb (platform env) "win32")
      then JStr (path_resolve env a)
      else JStr a
  | v => v
  end.

Definition indexesKey_of (env : Env) (options : ServerOptions) : string :=
  join_elem (resolved_address env options) +:+ ":" +:+
  join_elem (JNum (port options)) +:+ ":" +:+
  join_elem (addressType options) +:+ ":" +:+
  join_elem (fd options).

Definition _getServer (env : Env) (obj : ServerObj) (options : ServerOptions) (s : State) : State :=
  let address := resolved_address env options in
  let indexesKey := indexesKey_of env options in
  let '(index, ix) := allocateIndex indexesKey (indexes s) in
  let data := default JNull (_getServerData obj) in
  let message := MsgQueryServer index data address options in
  send message (Some (CbQueryReply obj indexesKey index)) (with_indexes ix s).

(** The index carried by the query a [_getServer] call sends. *)
Definition queried_index (env : Env) (options : ServerOptions) (s : State) : nat :=
  fst (allocateIndex (indexesKey_of env options) (indexes s)).

(** The ['listening'] listener [_getServer] leaves on [obj];
    [bound_port] is [address && address.port] of [obj.address()]. *)
Definition on_listening (index : nat) (data address : JsVal) (options : ServerOptions)
    (bound_port : option Z) (s : State) : State :=
  let s1 := with_state "listening" s in
  let port :=
    match bound_port with
    | Some p => if decide (p = 0%Z) then port options else p
    | None => port options
    end in
  send (MsgListening index data address port options) None s1.

(** ** Routing a connection *)

(** [onconnection(message, handle)] for [{ key, seq }] and the connection
    handle that came with it. Calling the hook of a handle that has none
    is a TypeError. *)
Definition onconnection (key : Key) (seq : Z) (connection : HandleId) (s : State) : Outcome :=
  let server := handles_get key (handles s) in
  let accepted := bool_decide (is_Some server) in
  let s1 := send (MsgAck seq accepted) None s in
  match server with
  | Some h =>
      match heap s1 !! h with
      | Some obj =>
          if onconnection_hook obj then Returned (emit (EvDeliver h connection) s1)
          else Thrown TypeError s1
      | None => Thrown TypeError s1
      end
  | None => Returned s1
  end.

(** ** Disconnect *)

(** The closure of one [_disconnect] invocation: its argument, its
    counter, and the handles whose close was given [checkWaitingCount]
    and has not called it yet. *)
Record Drain := mkDrain {
  primaryInitiated : bool;
  waitingCount : Z;
  pending : list HandleId;
}.

Definition checkWaitingCount (d : Drain) (s : State) : Drain * State :=
  let d' := mkDrain (primaryInitiated d) (waitingCount d - 1) (pending d) in
  if decide (waitingCount d' = 0%Z) then
    if primaryInitiated d
    then (d', emit EvProcessDisconnect s)
    else (d', send MsgExitedAfterDisconnect (Some CbProcessDisconnect) s)
  else (d', s).

Fixpoint remove_one (h : HandleId) (l : list HandleId) : list HandleId :=
  match l with
  | [] => []
  | x :: rest => if decide (x = h) then rest else x :: remove_one h rest
  end.

(** The close of [h] completes: whoever holds the callback calls it, once.
    A handle with no callback outstanding has nothing to call. *)
Definition complete (h : HandleId) (d : Drain) (s : State) : Drain * State :=
  if decide (h ∈ pending d)
  then checkWaitingCount
         (mkDrain (primaryInitiated d) (waitingCount d) (remove_one h (pending d)))
         (emit (EvCloseDone h) s)
  else (d, s).

Fixpoint complete_all (hs : list HandleId) (d : Drain) (s : State) : Drain * State :=
  match hs with
  | [] => (d, s)
  | h :: rest => let '(d1, s1) := complete h d s in complete_all rest d1 s1
  end.

(** The body of the [handles.forEach] callback. The owner's close is the
    listener's; it keeps the callback. *)
Definition visit (h : HandleId) (d : Drain) (s : State) : Drain * State :=
  let count := (waitingCount d + 1)%Z in
  match heap s !! h with
  | Some (mkHandle _ (Some o) _) =>
      (mkDrain (primaryInitiated d) count (pending d ++ [h]), emit (EvOwnerClose o h) s)
  | _ =>
      let '(s1, kept) := handle_close h true s in
      (mkDrain (primaryInitiated d) count (if kept then pending d ++ [h] else pending d), s1)
  end.

(** [handles.forEach] over the entries present when it starts: an entry
    deleted before its turn is not visited. After the visit of the i-th
    entry the closes listed in the i-th element of [during] complete
    (synchronously, inside the close call or a later one). *)
Fixpoint forEach_close (entries : list (Key * HandleId)) (during : list (list HandleId))
    (d : Drain) (s : State) : Drain * State :=
  match entries with
  | [] => (d, s)
  | (key, h) :: rest =>
      let '(d1, s1) := if handles_has key (handles s) then visit h d s else (d, s) in
      let '(d2, s2) := complete_all (hd [] during) d1 s1 in
      forEach_close rest (tl during) d2 s2
  end.

Definition _disconnect (primaryInitiated : bool) (during : list (list HandleId)) (s : State)
    : Drain * State :=
  let s0 := with_exitedAfterDisconnect true s in
  let d0 := mkDrain primaryInitiated 1 [] in
  let '(d1, s1) := forEach_close (handles s0) during d0 s0 in
  let s2 := with_handles [] s1 in
  checkWaitingCount d1 s2.

(** [Worker.prototype.disconnect]; [None] when the guard skips the
    drain. *)
Definition Worker_disconnect (during : list (list HandleId)) (s : State) : option Drain * State :=
  if negb (String.eqb (state s) "disconnecting") && negb (String.eqb (state s) "destroying")
  then
    let '(d, s1) := _disconnect false during (with_state "disconnecting" s) in
    (Some d, s1)
  else (None, s).

(** The rest of a drain: the closes of [later] complete, in that order,
    after the call that started it has returned. *)
Definition settle (later : list HandleId) (r : option Drain * State) : option Drain * State :=
  match r with
  | (Some d, s) => let '(d1, s1) := complete_all later d s in (Some d1, s1)
  | (None, s) => (None, s)
  end.

(** Modelled from the spec: [isConnected] belongs to the generic Worker
    (internal/cluster/worker), not among the sources; it reads the
    channel's [connected] flag. *)
Definition isConnected (s : State) : bool := connected s.

(** [Worker.prototype.destroy]. *)
Definition Worker_destroy (s : State) : State :=
  if String.eqb (state s) "destroying" then s
  else
    let s1 := with_exitedAfterDisconnect true s in
    if negb (isConnected s1) then emit (EvProcessExit 0) s1
    else
      let s2 := with_state "destroying" s1 in
      let s3 := send MsgExitedAfterDisconnect (Some CbProcessDisconnect) s2 in
      emit EvOnceDisconnectExit s3.

(** ** Inbound messages *)

Record InMessage := mkInMessage {
  act : string;
  msg_key : Key;
  msg_seq : Z;
}.

(** [onmessage(message, handle)] of [_setupWorker]. *)
Definition onmessage (message : InMessage) (handle : HandleId) (during : list (list HandleId))
    (s : State) : option Drain * Outcome :=
  if String.eqb (act message) "newconn"
  then (None, onconnection (msg_key message) (msg_seq message) handle s)
  else if String.eqb (act message) "disconnect"
  then let '(d, s1) := _disconnect true during s in (Some d, Returned s1)
  else (None, Returned s).

(** ** Reading the trace *)

Definition is_exited (e : Event) : bool :=
  match e with
  | EvSend MsgExitedAfterDisconnect _ => true
  | _ => false
  end.

Definition is_transport_disconnect (e : Event) : bool :=
  match e with
  | EvProcessDisconnect => true
  | _ => false
  end.

(** The event that ends a drain. *)
Definition final_of (primaryInitiated : bool) : Event :=
  if primaryInitiated then EvProcessDisconnect
  else EvSend MsgExitedAfterDisconnect (Some CbProcessDisconnect).

Definition is_final (e : Event) : bool := is_exited e || is_transport_disconnect e.

(** The close call [_disconnect] owes the handle [h]: its owner's close
    when it has one, else its own. *)
Definition close_call (hp : gmap HandleId HandleObj) (h : HandleId) : option Event :=
  match hp !! h with
  | Some (mkHandle _ (Some o) _) => Some (EvOwnerClose o h)
  | Some (mkHandle (Real _) None _) => Some (EvNativeClose h true)
  | _ => None
  end.

(** The keys a close binding deletes from [handles]. *)
Fixpoint captured_keys (c : CloseFn) : list Key :=
  match c with
  | NativeClose => []
  | SharedClose key _ _ orig => key :: captured_keys orig
  end.

(** The object [e] points to was registered under the key its close
    captured. *)
Definition entry_ok (hp : gmap HandleId HandleObj) (e : Key * HandleId) : bool :=
  match hp !! snd e with
  | Some (mkHandle (Real c) _ _) => forallb (String.eqb (fst e)) (captured_keys c)
  | Some (mkHandle (Faux key _ _ _) _ _) =>
      match key with Some k => String.eqb (fst e) k | None => true end
  | None => false
  end.

(** Every entry of the registry points to an object, which was
    registered under the key its close captured, and no key occurs
    twice. *)
Definition registry_ok (s : State) : bool :=
  bool_decide (NoDup (fst <$> handles s)) && forallb (entry_ok (heap s)) (handles s).

(** The close the drain calls on [h] takes the completion callback: the
    owner's close, or the native close under the wrappers of [shared]. *)
Definition takes_callback (hp : gmap HandleId HandleObj) (h : HandleId) : bool :=
  bool_decide (is_Some (close_call hp h)).

(** ** Start-up *)

(** [cluster._setupWorker]: the worker is created 'online' and announces
    itself to the primary. *)
Definition _setupWorker (s : State) : State :=
  send MsgOnline None (with_state "online" s).

(** The listener [_setupWorker] leaves on the process 'disconnect'
    event: without a prior orderly sequence the worker exits. *)
Definition on_process_disconnect (s : State) : State :=
  let s1 := emit (EvWorkerEmit "disconnect") s in
  if exitedAfterDisconnect s1 then s1 else emit (EvProcessExit 0) s1.

(** A worker process before and after [_setupWorker], its channel up. *)
Definition blank : State :=
  mkState [] ∅ ∅ "none" false true [].

Definition initial : State := _setupWorker blank.

(** ** Sequences of calls *)

(** What the listener side does to the module between two points of a
    run: register a listener, deliver the primary's reply to a query, or
    call [close()] on a handle it holds. *)
Inductive WorkerOp :=
| OpGetServer (obj : ServerObj) (options : ServerOptions)
| OpReply (obj : ServerObj) (indexesKey : string) (index : nat) (reply : Reply)
    (handle : option HandleId)
| OpClose (h : HandleId) (with_callback : bool).

Definition worker_step (env : Env) (op : WorkerOp) (s : State) : State :=
  match op with
  | OpGetServer obj options => _getServer env obj options s
  | OpReply obj indexesKey index reply handle =>
      final (on_query_reply obj indexesKey index reply handle s)
  | OpClose h with_callback => fst (handle_close h with_callback s)
  end.

(** The indices obtained, oldest first, by the [_getServer] calls of
    [ops] whose options join to [indexesKey]. *)
Fixpoint queried (env : Env) (indexesKey : string) (ops : list WorkerOp) (s : State) : list nat :=
  match ops with
  | [] => []
  | op :: rest =>
      let here :=
        match op with
        | OpGetServer _ options =>
            if decide (indexesKey_of env options = indexesKey)
            then [queried_index env options s] else []
        | _ => []
        end in
      here ++ queried env indexesKey rest (worker_step env op s)
  end.

(** No step of [ops] garbage-collects the bookkeeping of [indexesKey]:
    an entry that is there before a step is there after it. *)
Fixpoint entry_kept (env : Env) (indexesKey : string) (ops : list WorkerOp) (s : State) : bool :=
  match ops with
  | [] => true
  | op :: rest =>
      let s' := worker_step env op s in
      implb (bool_decide (is_Some (indexes s !! indexesKey)))
            (bool_decide (is_Some (indexes s' !! indexesKey)))
      && entry_kept env indexesKey rest s'
  end.

(** The [(indexesKey, index)] pairs a close binding releases. *)
Fixpoint captured_pairs (c : CloseFn) : list (string * nat) :=
  match c with
  | NativeClose => []
  | SharedClose _ indexesKey index orig => (indexesKey, index) :: captured_pairs orig
  end.

(** The pairs the close of an object would release. *)
Definition releases (obj : HandleObj) : list (string * nat) :=
  match body obj with
  | Real c => captured_pairs c
  | Faux (Some _) indexesKey index _ => [(indexesKey, index)]
  | Faux None _ _ _ => []
  end.

(** No object has a close that would release [(indexesKey, index)]. *)
Definition unclaimed (indexesKey : string) (index : nat) (s : State) : Prop :=
  map_Forall (λ _ obj, (indexesKey, index) ∉ releases obj) (heap s).

(** [op] delivers a reply to the query that obtained
    [(indexesKey, index)]. *)
Definition replies_to (indexesKey : string) (index : nat) (op : WorkerOp) : bool :=
  match op with
  | OpReply _ k i _ _ => bool_decide (k = indexesKey ∧ i = index)
  | _ => false
  end.

Definition run_ops (env : Env) (ops : list WorkerOp) (s : State) : State :=
  foldl (λ s op, worker_step env op s) s ops.

(** The handle that comes with a reply is a new object. *)
Fixpoint new_handles (env : Env) (ops : list WorkerOp) (s : State) : Prop :=
  match ops with
  | [] => True
  | op :: rest =>
      match op with
      | OpReply _ _ _ _ (Some h) => heap s !! h = None
      | _ => True
      end ∧ new_handles env rest (worker_step env op s)
  end.

(** ** Invariants of a drain *)

Definition no_final (evs : list Event) : Prop := Forall (λ e, is_final e = false) evs.

Definition no_exited (evs : list Event) : Prop := Forall (λ e, is_exited e = false) evs.

(** What holds of a drain started with argument [pi] on a trace [t0],
    before ([b] is 1) and after ([b] is 0) its own final decrement: the
    counter covers the outstanding closes, nothing final has happened
    while it is positive, and when it is 0 the final event has happened
    once, last. *)
Definition drain_inv (pi : bool) (t0 : list Event) (b : Z) (r : Drain * State) : Prop :=
  primaryInitiated r.1 = pi ∧
  ∃ evs, trace r.2 = t0 ++ evs
    ∧ (b + Z.of_nat (length (pending r.1)) ≤ waitingCount r.1)%Z
    ∧ ((0 < waitingCount r.1)%Z → no_final evs)
    ∧ (waitingCount r.1 = 0%Z → ∃ evs0, evs = evs0 ++ [final_of pi] ∧ no_final evs0).

(** What holds besides when every close called so far took the
    callback: the counter is exactly the outstanding closes (plus [b]),
    the objects are those of [hp], and each handle of [visited] had its
    close called and is either still outstanding or done. *)
Definition drain_exact (hp : gmap HandleId HandleObj) (t0 : list Event) (b : Z)
    (visited : list HandleId) (r : Drain * State) : Prop :=
  waitingCount r.1 = (b + Z.of_nat (length (pending r.1)))%Z ∧
  heap r.2 = hp ∧
  ∃ evs, trace r.2 = t0 ++ evs
    ∧ ∀ h, h ∈ visited →
        (∃ ev, close_call hp h = Some ev ∧ ev ∈ evs)
        ∧ (h ∈ pending r.1 ∨ EvCloseDone h ∈ evs).

(** The messages a wrapped close sends on its way to the native close. *)
Definition close_messages (c : CloseFn) : list Event :=
  (λ key, EvSend (MsgClose key) None) <$> captured_keys c.

(** The keys the close called on [h] by the drain deletes from the
    registry. *)
Definition deleted_by (hp : gmap HandleId HandleObj) (h : HandleId) : list Key :=
  match hp !! h with
  | Some (mkHandle (Real c) None _) => captured_keys c
  | Some (mkHandle (Faux (Some key) _ _ _) None _) => [key]
  | _ => []
  end.

(** Every registered handle is closed by the drain through a close that
    takes the callback. *)
Definition all_take_callback (s : State) : bool :=
  forallb (λ e, takes_callback (heap s) (snd e)) (handles s).

(** What a listener does to the handle it was given once it listens on
    it: it records itself as the owner and installs its accept hook. *)
Definition listener_attach (h : HandleId) (o : OwnerId) (s : State) : State :=
  with_heap (alter (λ obj, mkHandle (body obj) (Some o) true) h (heap s)) s.

(** [ix'] comes from [ix] by releases only: no entry appears, and an
    entry that is still there has its [nextIndex]. *)
Definition released (ix ix' : Indexes) : Prop :=
  ∀ k e', ix' !! k = Some e' → ∃ e, ix !! k = Some e ∧ nextIndex e = nextIndex e'.

(** ** Concrete workers used in the examples *)

Definition linux : Env := mkEnv "linux" (λ a, "/srv/" +:+ a).
Definition server0 : ServerObj := mkServerObj None false.
Definition tcp8000 : ServerOptions := mkOptions (JStr "0.0.0.0") 8000 (JNum 4) JUndefined.
Definition key8000 : string := "0.0.0.0:8000:4:".
Definition sockname0 : Obj := {[ "address" := JStr "0.0.0.0" ]} ∪ {[ "port" := JNum 8000 ]}.
Definition reply_ok (key : Key) : Reply := mkReply 0 key (Some sockname0) JNull.
Definition reply_failed (key : Key) : Reply := mkReply (-98) key None JNull.

(** One listener registered round-robin under "k1": the faux handle is
    object 0, its index 0 is live. *)
Definition one_listener : State :=
  final (rr (reply_ok "k1") key8000 0 (_getServer linux server0 tcp8000 initial)).

(** Two listeners: the faux handle 0 under "k1", owned by listener 100,
    and the shared handle 7 under "k2", which no listener owns. *)
Definition udp53 : ServerOptions := mkOptions (JStr "::") 53 (JStr "udp6") JUndefined.

Definition two_listeners : State :=
  let s1 := _getServer linux server0 tcp8000 initial in
  let s2 := listener_attach 0 100 (final (rr (mkReply 0 "k1" None JNull) key8000 0 s1)) in
  let s3 := _getServer linux server0 udp53 s2 in
  final (shared (mkReply 0 "k2" None JNull) 7 (indexesKey_of linux udp53) 0 s3).

Definition three_queries : list WorkerOp :=
  [ OpGetServer server0 tcp8000;
    OpGetServer server0 tcp8000;
    OpReply server0 key8000 0 (reply_ok "k1") None;
    OpClose 0 false;
    OpGetServer server0 tcp8000 ].

Definition after_failure : list WorkerOp :=
  [ OpGetServer server0 tcp8000;
    OpReply server0 key8000 1 (reply_ok "k1") None;
    OpClose 0 false;
    OpGetServer server0 udp53;
    OpReply server0 (indexesKey_of linux udp53) 0 (mkReply 0 "k2" None JNull) (Some 7);
    OpClose 7 true;
    OpClose 7 true ].

Definition channel_down (s : State) : State :=
  mkState (handles s) (indexes s) (heap s) (state s) (exitedAfterDisconnect s) false (trace s).

(** ** Further invariants *)

(** The allocator's bookkeeping: an entry exists only while some index
    of its tuple is live, and every live index is below [nextIndex]. *)
Definition indexes_ok (ix : Indexes) : Prop :=
  map_Forall (λ _ indexSet,
    set indexSet ≠ ∅ ∧ set_Forall (λ i, i < nextIndex indexSet) (set indexSet)) ix.

(** The parts of [cluster.worker] and [process] that [s'] shares with
    [s]. *)
Definition same_worker (s s' : State) : Prop :=
  state s' = state s
  ∧ exitedAfterDisconnect s' = exitedAfterDisconnect s
  ∧ connected s' = connected s.

(** The 'listening' listener as [_getServer] leaves it on [obj] when
    called in state [s0]: it announces the very message object of the
    query, so the index, the data and the address are the query's. *)
Definition listening_listener (env : Env) (obj : ServerObj) (options : ServerOptions)
    (s0 : State) (bound_port : option Z) (s : State) : State :=
  on_listening (queried_index env options s0) (default JNull (_getServerData obj))
    (resolved_address env options) options bound_port s.

(** [s1] and [s2] have the same registry and objects and the same
    bookkeeping for the tuple [indexesKey]. *)
Definition agree_on (indexesKey : string) (s1 s2 : State) : Prop :=
  handles s1 = handles s2
  ∧ heap s1 = heap s2
  ∧ indexes s1 !! indexesKey = indexes s2 !! indexesKey.

(** [ops] without the [_getServer] calls on tuples other than
    [indexesKey]. *)
Definition without_other_queries (env : Env) (indexesKey : string) (ops : list WorkerOp)
    : list WorkerOp :=
  List.filter (λ op,
    match op with
    | OpGetServer _ options => bool_decide (indexesKey_of env options = indexesKey)
    | _ => true
    end) ops.

(** [run] occurs in [evs] as one uninterrupted stretch. *)
Definition has_run (run evs : list Event) : Prop :=
  ∃ before after, evs = before ++ run ++ after.

(** What a drain started on the objects [hp0] has done, by the time
    the objects are [hp'] and the events [evs] have happened, to the
    handle [h]: its owner's close was called; or, with no owner, the
    close messages of its wrappers, one each, outermost first, were sent
    and then, next, its native close was called with the callback; or,
    an open faux handle with no owner, its close message was sent and
    its [key] is undefined; a faux handle with no owner that was closed
    before is as it was. *)
Definition swept (hp0 hp' : gmap HandleId HandleObj) (evs : list Event) (h : HandleId) : Prop :=
  match hp0 !! h with
  | Some (mkHandle _ (Some o) _) => EvOwnerClose o h ∈ evs
  | Some (mkHandle (Real c) None _) =>
      has_run (close_messages c ++ [EvNativeClose h true]) evs
  | Some (mkHandle (Faux (Some k) indexesKey index sockname) None hook) =>
      EvSend (MsgClose k) None ∈ evs
      ∧ hp' !! h = Some (mkHandle (Faux None indexesKey index sockname) None hook)
  | Some (mkHandle (Faux None _ _ _) None _) => hp' !! h = hp0 !! h
  | None => False
  end.

(** ** States used by the counterexamples *)


(** A tuple whose index 0 is handed out a second time: the first query
    got the shared handle 7, whose close collected the tuple's entry, and
    a new query on the tuple is waiting for its reply. *)
Definition second_query : State :=
  run_ops linux
    [ OpGetServer server0 tcp8000;
      OpReply server0 key8000 0 (mkReply 0 "k2" None JNull) (Some 7);
      OpClose 7 false;
      OpGetServer server0 tcp8000 ] initial.

(** * Properties *)


(** ** The allocator *)

Section Allocator.

Implicit Types (ix : Indexes) (k : string) (i : nat).

Lemma allocateIndex_next k ix :
  next_of k (snd (allocateIndex k ix)) = S (fst (allocateIndex k ix)).
Proof. unfold next_of, allocateIndex; simpl. by rewrite lookup_insert_eq. Qed.

Lemma allocateIndex_fst k ix : fst (allocateIndex k ix) = next_of k ix.
Proof. unfold next_of, allocateIndex; simpl. by destruct (ix !! k). Qed.

Lemma allocateIndex_other k k' ix :
  k ≠ k' → snd (allocateIndex k ix) !! k' = ix !! k'.
Proof. intros Hne. unfold allocateIndex; simpl. by rewrite lookup_insert_ne. Qed.

Lemma removeIndexesKey_other k k' i ix :
  k ≠ k' → removeIndexesKey k i ix !! k' = ix !! k'.
Proof.
  intros Hne. unfold removeIndexesKey.
  destruct (ix !! k) as [e|]; [|done].
  case_decide; [by rewrite lookup_delete_ne | by rewrite lookup_insert_ne].
Qed.

(** A step that does not collect the entry of [k] does not lower its
    [nextIndex]. *)
Lemma alloc_step_next_mono k op ix :
  (is_Some (ix !! k) → is_Some (alloc_step op ix !! k)) →
  next_of k ix ≤ next_of k (alloc_step op ix).
Proof.
  intros Hkeep. destruct op as [k'|k' i]; cbn [alloc_step] in *.
  - destruct (decide (k' = k)) as [->|Hne].
    + rewrite allocateIndex_next, allocateIndex_fst. lia.
    + unfold next_of. by rewrite allocateIndex_other.
  - destruct (decide (k' = k)) as [->|Hne].
    + unfold next_of, removeIndexesKey in *.
      destruct (ix !! k) as [e|] eqn:Hk; [|by rewrite Hk].
      case_decide.
      * rewrite lookup_delete_eq in Hkeep. destruct Hkeep as [? ?]; [by eexists|done].
      * by rewrite lookup_insert_eq.
    + unfold next_of. by rewrite removeIndexesKey_other.
Qed.

(** A live index stays live through every step other than its own
    release. *)
Lemma live_alloc_step k i op ix :
  op ≠ Release k i → live k i ix → live k i (alloc_step op ix).
Proof.
  intros Hop (e & Hk & Hi). destruct op as [k'|k' j]; cbn [alloc_step].
  - destruct (decide (k' = k)) as [->|Hne].
    + unfold allocateIndex; simpl. rewrite Hk.
      eexists; split; [apply lookup_insert_eq|]. simpl. set_solver.
    + exists e. split; [by rewrite allocateIndex_other|done].
  - destruct (decide (k' = k)) as [->|Hne].
    + assert (j ≠ i) by congruence.
      unfold removeIndexesKey. rewrite Hk.
      assert (Hstill : i ∈ set e ∖ {[j]}) by set_solver.
      case_decide as Hsz.
      * apply size_empty_inv in Hsz. apply Hsz in Hstill.
        by apply not_elem_of_empty in Hstill.
      * eexists; split; [apply lookup_insert_eq|done].
    + exists e. split; [by rewrite removeIndexesKey_other|done].
Qed.

(** The index a query obtains is live afterwards and was not before, when
    every live index is below [nextIndex]. *)
Lemma allocateIndex_live k ix :
  live k (fst (allocateIndex k ix)) (snd (allocateIndex k ix)).
Proof.
  unfold live, allocateIndex; simpl.
  eexists; split; [apply lookup_insert_eq|]. simpl. set_solver.
Qed.

End Allocator.

(** ** Index uniqueness over a run *)

Section Runs.

Variable env : Env.

Lemma released_refl ix : released ix ix.
Proof. intros k e' H. eauto. Qed.

Lemma released_trans ix1 ix2 ix3 : released ix1 ix2 → released ix2 ix3 → released ix1 ix3.
Proof.
  intros H12 H23 k e3 H3. destruct (H23 _ _ H3) as (e2 & H2 & E23).
  destruct (H12 _ _ H2) as (e1 & H1 & E12). exists e1. split; [done|congruence].
Qed.

Lemma removeIndexesKey_released k i ix : released ix (removeIndexesKey k i ix).
Proof.
  intros k' e' H. unfold removeIndexesKey in H.
  destruct (ix !! k) as [e|] eqn:Hk; [|eauto].
  case_decide.
  - apply lookup_delete_Some in H as [_ H]. eauto.
  - apply lookup_insert_Some in H as [[<- <-]|[_ H]]; eauto.
Qed.

Lemma run_close_released c h b s : released (indexes s) (indexes (run_close c h b s)).
Proof.
  revert s. induction c as [|key k i orig IH]; intros s; simpl; [apply released_refl|].
  eapply released_trans; [|apply IH]. simpl. apply removeIndexesKey_released.
Qed.

Lemma faux_close_released h s : released (indexes s) (indexes (faux_close h s)).
Proof.
  unfold faux_close. destruct (heap s !! h) as [[[c|[key|] k i sn] o hook]|]; simpl;
    try apply released_refl.
  apply removeIndexesKey_released.
Qed.

Lemma handle_close_released h b s : released (indexes s) (indexes (fst (handle_close h b s))).
Proof.
  unfold handle_close. destruct (heap s !! h) as [[[c|key k i sn] o hook]|]; simpl.
  - apply run_close_released.
  - apply faux_close_released.
  - apply released_refl.
Qed.

Lemma shared_indexes r h k i s : indexes (final (shared r h k i s)) = indexes s.
Proof. unfold shared. by case_match. Qed.

Lemma rr_indexes r k i s : indexes (final (rr r k i s)) = indexes s.
Proof. unfold rr. case_decide; [done|]. by case_match. Qed.

Lemma on_query_reply_indexes obj k i r h s :
  indexes (final (on_query_reply obj k i r h s)) = indexes s.
Proof.
  unfold on_query_reply. destruct h; [rewrite shared_indexes|rewrite rr_indexes];
    by destruct (_setServerData obj).
Qed.

Lemma _getServer_indexes obj options s :
  indexes (_getServer env obj options s)
  = snd (allocateIndex (indexesKey_of env options) (indexes s)).
Proof. unfold _getServer. by destruct (allocateIndex _ _). Qed.

(** The query sent by [_getServer] carries the allocated index. *)
Lemma _getServer_trace obj options s :
  trace (_getServer env obj options s)
  = trace s ++ [EvSend (MsgQueryServer (queried_index env options s)
                          (default JNull (_getServerData obj))
                          (resolved_address env options) options)
                  (Some (CbQueryReply obj (indexesKey_of env options)
                           (queried_index env options s)))].
Proof. unfold _getServer, queried_index. by destruct (allocateIndex _ _). Qed.

Lemma worker_step_next_mono k op s :
  (is_Some (indexes s !! k) → is_Some (indexes (worker_step env op s) !! k)) →
  next_of k (indexes s) ≤ next_of k (indexes (worker_step env op s)).
Proof.
  intros Hkeep.
  assert (Hrel : ∀ ix', released (indexes s) ix' →
            (is_Some (indexes s !! k) → is_Some (ix' !! k)) →
            next_of k (indexes s) ≤ next_of k ix').
  { intros ix' Hrel Hk. unfold next_of.
    destruct (indexes s !! k) as [e|] eqn:He; [|lia].
    destruct Hk as [e' He']; [by eexists|]. rewrite He'.
    destruct (Hrel _ _ He') as (e0 & He0 & Hn). rewrite He in He0. injection He0 as ->. lia. }
  destruct op as [obj options|obj k' i r h|h b]; cbn [worker_step] in *.
  - rewrite _getServer_indexes in *.
    apply (alloc_step_next_mono k (Query (indexesKey_of env options))). exact Hkeep.
  - rewrite on_query_reply_indexes. lia.
  - apply Hrel; [apply handle_close_released|done].
Qed.

End Runs.

(** ** Examples *)

Example indexesKey_tcp8000 : indexesKey_of linux tcp8000 = key8000.
Proof. vm_compute. reflexivity. Qed.

Example indexesKey_pipe :
  indexesKey_of linux (mkOptions (JStr "app.sock") (-1) (JNum (-1)) JUndefined)
  = "/srv/app.sock:-1:-1:".
Proof. vm_compute. reflexivity. Qed.

Example one_listener_registry : handles one_listener = [("k1", 0)].
Proof. vm_compute. reflexivity. Qed.

(** ** C7: index uniqueness *)

(** C7, as amended. For every fixed endpoint tuple, the [_getServer]
    calls of a run obtain pairwise distinct indices, whatever handles
    were closed (indices released) between the calls, as long as no step
    of the run garbage-collects the tuple's bookkeeping entry, that is,
    as long as its live set never becomes empty. The indices are then
    handed out in increasing order, none below the entry's [nextIndex]
    at the start of the run. *)
Theorem getServer_indices_distinct (env : Env) (indexesKey : string)
    (ops : list WorkerOp) (s : State) :
  entry_kept env indexesKey ops s = true →
  NoDup (queried env indexesKey ops s)
  ∧ Forall (λ i, next_of indexesKey (indexes s) ≤ i) (queried env indexesKey ops s).
Proof.
  revert s. induction ops as [|op rest IH]; intros s Hkept.
  { split; constructor. }
  cbn [entry_kept] in Hkept. apply andb_prop in Hkept as [Hkeep Hrest].
  destruct (IH _ Hrest) as [Hnd Hge].
  assert (Hmono : next_of indexesKey (indexes s)
                  ≤ next_of indexesKey (indexes (worker_step env op s))).
  { apply worker_step_next_mono. intros Hs.
    rewrite (bool_decide_eq_true_2 _ Hs) in Hkeep. simpl in Hkeep.
    by apply bool_decide_eq_true_1 in Hkeep. }
  assert (Hge' : Forall (λ i, next_of indexesKey (indexes s) ≤ i)
                   (queried env indexesKey rest (worker_step env op s))).
  { eapply Forall_impl; [exact Hge|]. simpl. intros; lia. }
  cbn [queried].
  destruct op as [obj options|obj k' i r h|h b]; [|done..].
  case_decide as Hk; [|done].
  cbn [app worker_step] in *. unfold queried_index.
  rewrite _getServer_indexes in Hge. rewrite Hk in *.
  rewrite allocateIndex_next in Hge.
  rewrite allocateIndex_fst in *.
  split.
  - constructor; [|done].
    intros Hin. rewrite Forall_forall in Hge. apply Hge in Hin. lia.
  - constructor; [lia | done].
Qed.

Lemma getServer_indices_distinct_witness :
  queried linux key8000 three_queries initial = [0; 1; 2] ∧
  NoDup (queried linux key8000 three_queries initial).
Proof.
  split; [vm_compute; reflexivity|].
  apply (getServer_indices_distinct linux key8000 three_queries initial).
  vm_compute. reflexivity.
Defined.

(** C7 as stated fails: once the only live index of the tuple is
    released its entry is deleted, and the next call starts again from
    index 0. *)
Lemma getServer_index_reused :
  let ops := [ OpGetServer server0 tcp8000;
               OpReply server0 key8000 0 (reply_ok "k1") None;
               OpClose 0 false;
               OpGetServer server0 tcp8000 ] in
  queried linux key8000 ops initial = [0; 0] ∧
  ¬ NoDup (queried linux key8000 ops initial).
Proof.
  assert (E : queried linux key8000
                [ OpGetServer server0 tcp8000;
                  OpReply server0 key8000 0 (reply_ok "k1") None;
                  OpClose 0 false;
                  OpGetServer server0 tcp8000 ] initial = [0; 0]).
  { vm_compute. reflexivity. }
  cbv zeta. split; [exact E|]. rewrite E. intros Hnd.
  apply NoDup_cons in Hnd as [Hnotin _]. apply Hnotin. constructor.
Qed.

(** ** C3: routing a connection *)

(** C3. A newconn message whose key is not in the registry is answered
    with [{ ack: seq, accepted: false }] and nothing else happens: the
    call returns, without a throw and without a handoff. For every
    newconn message the acknowledgement is the first thing the worker
    does, and what follows it, if anything, is the one handoff to the
    registered handle. *)
Theorem newconn_ack_before_handoff (message : InMessage) (connection : HandleId)
    (during : list (list HandleId)) (s : State) :
  act message = "newconn" →
  (handles_has (msg_key message) (handles s) = false →
     onmessage message connection during s
     = (None, Returned (send (MsgAck (msg_seq message) false) None s)))
  ∧ ∃ rest,
      trace (final (snd (onmessage message connection during s)))
      = trace s ++ EvSend (MsgAck (msg_seq message)
                             (handles_has (msg_key message) (handles s))) None :: rest
      ∧ (rest = [] ∨ ∃ h, handles_get (msg_key message) (handles s) = Some h
                          ∧ rest = [EvDeliver h connection]).
Proof.
  intros Hact. unfold onmessage. rewrite Hact. cbn [String.eqb Ascii.eqb Bool.eqb fst snd].
  unfold onconnection, handles_has. split.
  - intros Hno. apply bool_decide_eq_false_1 in Hno.
    destruct (handles_get (msg_key message) (handles s)) as [h|] eqn:Hget.
    + destruct Hno. by eexists.
    + rewrite bool_decide_eq_false_2; [done|]. by intros [? ?].
  - destruct (handles_get (msg_key message) (handles s)) as [h|] eqn:Hget.
    + destruct (heap _ !! h) as [obj|]; [destruct (onconnection_hook obj)|]; simpl.
      * rewrite <- app_assoc. eexists. split; [reflexivity|]. right. eauto.
      * eexists. split; [reflexivity|]. by left.
      * eexists. split; [reflexivity|]. by left.
    + simpl. eexists. split; [reflexivity|]. by left.
Qed.

Lemma newconn_ack_before_handoff_witness :
  let message := mkInMessage "newconn" "k1" 7 in
  let closed := faux_close 0 one_listener in
  onmessage message 5 [] closed
  = (None, Returned (send (MsgAck 7 false) None closed)).
Proof.
  cbv zeta.
  apply (newconn_ack_before_handoff (mkInMessage "newconn" "k1" 7) 5 []
           (faux_close 0 one_listener)).
  - reflexivity.
  - vm_compute. reflexivity.
Defined.

(** ** C4: closing a faux handle twice *)

Lemma handles_get_delete_eq key m : handles_get key (handles_delete key m) = None.
Proof.
  unfold handles_get, handles_delete. induction m as [|[k0 h0] m IH]; [done|].
  rewrite filter_cons. simpl. case_decide as Hk; [|exact IH].
  simpl. by rewrite bool_decide_eq_false_2.
Qed.

Lemma removeIndexesKey_not_live k i ix : ¬ live k i (removeIndexesKey k i ix).
Proof.
  unfold live, removeIndexesKey. intros (e & He & Hi).
  destruct (ix !! k) as [e0|] eqn:Hk; [|congruence].
  case_decide.
  - by rewrite lookup_delete_eq in He.
  - rewrite lookup_insert_eq in He. injection He as <-. simpl in Hi.
    apply elem_of_difference in Hi as [_ Hi]. apply Hi. by apply elem_of_singleton.
Qed.

(** C4. On an open faux handle (its [key] is defined) two [close()] calls
    in a row send one [{ act: 'close', key }], delete the key from the
    registry and release the index once, and set [key] to undefined; the
    second call finds [key] undefined and leaves the whole state as the
    first one left it. Afterwards the key is not registered and the
    index is not live. *)
Theorem faux_close_idempotent (h : HandleId) (key : Key) (indexesKey : string) (index : nat)
    (sockname : option Obj) (o : option OwnerId) (hook : bool) (s : State) :
  heap s !! h = Some (mkHandle (Faux (Some key) indexesKey index sockname) o hook) →
  let s1 := fst (handle_close h false s) in
  let s2 := fst (handle_close h false s1) in
  s2 = s1
  ∧ trace s2 = trace s ++ [EvSend (MsgClose key) None]
  ∧ handles s2 = handles_delete key (handles s)
  ∧ handles_get key (handles s2) = None
  ∧ indexes s2 = removeIndexesKey indexesKey index (indexes s)
  ∧ ¬ live indexesKey index (indexes s2)
  ∧ heap s2 !! h = Some (mkHandle (Faux None indexesKey index sockname) o hook).
Proof.
  intros Hh. cbv zeta.
  assert (E1 : fst (handle_close h false s)
    = with_heap (<[h := mkHandle (Faux None indexesKey index sockname) o hook]> (heap s))
        (with_indexes (removeIndexesKey indexesKey index (indexes s))
           (with_handles (handles_delete key (handles s))
              (send (MsgClose key) None s)))).
  { unfold handle_close, faux_close. by rewrite Hh. }
  assert (E2 : fst (handle_close h false (fst (handle_close h false s)))
               = fst (handle_close h false s)).
  { rewrite E1. unfold handle_close, faux_close. simpl. by rewrite lookup_insert_eq. }
  rewrite E2. split; [done|]. rewrite E1. simpl.
  split; [done|]. split; [done|]. split; [apply handles_get_delete_eq|].
  split; [done|]. split; [apply removeIndexesKey_not_live|apply lookup_insert_eq].
Qed.

Lemma faux_close_idempotent_witness :
  fst (handle_close 0 false (fst (handle_close 0 false one_listener)))
  = fst (handle_close 0 false one_listener)
  ∧ trace (fst (handle_close 0 false (fst (handle_close 0 false one_listener))))
    = trace one_listener ++ [EvSend (MsgClose "k1") None].
Proof.
  destruct (faux_close_idempotent 0 "k1" key8000 0 (Some sockname0) None false one_listener)
    as (E & T & _).
  - vm_compute. reflexivity.
  - split; [exact E|exact T].
Defined.

(** ** C5: no double registration *)

Lemma fresh_heap_lookup (hp : gmap HandleId HandleObj) : hp !! fresh (dom hp) = None.
Proof. apply not_elem_of_dom. apply is_fresh. Qed.

(** C5. When the reply's key is already in the registry, [shared], and
    [rr] on a successful reply (an error reply registers nothing and
    returns before the check), fail the internal assertion. The registry
    is as before, each key still bound to the handle it had, and so are
    the allocator, the trace (the listener's callback is not called) and
    every object other than the handle being registered. *)
Theorem duplicate_key_asserts (message : Reply) (h : HandleId) (indexesKey : string)
    (index : nat) (s : State) :
  handles_has (reply_key message) (handles s) = true →
  (∃ s', shared message h indexesKey index s = Thrown ERR_INTERNAL_ASSERTION s'
         ∧ handles s' = handles s ∧ indexes s' = indexes s ∧ trace s' = trace s
         ∧ ∀ h', h' ≠ h → heap s' !! h' = heap s !! h')
  ∧ (reply_errno message = 0%Z →
     ∃ s', rr message indexesKey index s = Thrown ERR_INTERNAL_ASSERTION s'
           ∧ handles s' = handles s ∧ indexes s' = indexes s ∧ trace s' = trace s
           ∧ ∀ h' obj, heap s !! h' = Some obj → heap s' !! h' = Some obj).
Proof.
  intros Hhas. split.
  - unfold shared. cbn [handles with_heap]. rewrite Hhas.
    eexists. split; [reflexivity|]. simpl. repeat split; try done.
    intros h' Hne. by rewrite lookup_insert_ne.
  - intros Herr. unfold rr. rewrite decide_False by (by intros []).
    cbn [handles with_heap]. rewrite Hhas.
    eexists. split; [reflexivity|]. simpl. repeat split; try done.
    intros h' obj Hh'. rewrite lookup_insert_ne; [done|].
    intros <-. by rewrite fresh_heap_lookup in Hh'.
Qed.

Lemma duplicate_key_asserts_witness :
  throws (shared (reply_ok "k1") 9 key8000 1 one_listener) = true
  ∧ throws (rr (reply_ok "k1") key8000 1 one_listener) = true
  ∧ handles (final (rr (reply_ok "k1") key8000 1 one_listener)) = [("k1", 0)].
Proof.
  destruct (duplicate_key_asserts (reply_ok "k1") 9 key8000 1 one_listener)
    as [(s1 & E1 & _) Hrr].
  - vm_compute. reflexivity.
  - destruct Hrr as (s2 & E2 & H2 & _); [reflexivity|].
    rewrite E1, E2. simpl. rewrite H2. repeat split.
Defined.

(** ** C8: destroy on a disconnected channel *)

(** C8, as amended. [destroy()] on a worker whose state is not already
    'destroying' and whose channel is not connected marks
    [exitedAfterDisconnect] and exits the process with code 0 at once:
    that exit is the only call it makes (no close, no send), and the
    registry, the allocator and the objects are untouched. *)
Theorem destroy_disconnected_exits (s : State) :
  state s ≠ "destroying" →
  connected s = false →
  Worker_destroy s = emit (EvProcessExit 0) (with_exitedAfterDisconnect true s)
  ∧ trace (Worker_destroy s) = trace s ++ [EvProcessExit 0]
  ∧ handles (Worker_destroy s) = handles s
  ∧ heap (Worker_destroy s) = heap s
  ∧ indexes (Worker_destroy s) = indexes s.
Proof.
  intros Hstate Hconn.
  assert (E : Worker_destroy s = emit (EvProcessExit 0) (with_exitedAfterDisconnect true s)).
  { unfold Worker_destroy, isConnected.
    destruct (String.eqb_spec (state s) "destroying") as [Heq|_]; [done|].
    simpl. by rewrite Hconn. }
  by rewrite E.
Qed.

Lemma destroy_disconnected_exits_witness :
  trace (Worker_destroy (channel_down one_listener))
  = trace (channel_down one_listener) ++ [EvProcessExit 0].
Proof.
  apply (destroy_disconnected_exits (channel_down one_listener)).
  - vm_compute. discriminate.
  - reflexivity.
Defined.

(** C8 as stated fails: the state guard comes first, so a worker already
    'destroying' whose channel is down (the transport disconnect of a
    first destroy has been requested, its 'disconnect' event has not
    fired yet) returns from [destroy()] without exiting. *)
Lemma destroy_while_destroying_returns :
  let s := channel_down (with_state "destroying" one_listener) in
  connected s = false
  ∧ Worker_destroy s = s
  ∧ EvProcessExit 0 ∉ trace (Worker_destroy s).
Proof.
  cbv zeta. split; [reflexivity|]. split; [reflexivity|].
  apply (bool_decide_unpack _). vm_compute. exact I.
Qed.

(** ** C9: getsockname of a faux handle *)




(** ** C2: entering the disconnect sequence twice *)

(** C2, as amended. A worker-initiated [disconnect()] on a worker whose
    state is already 'disconnecting' or 'destroying' is a no-op: no
    drain is started and the state, registry, objects and trace are
    exactly as before, so there is no close, no send and no transport
    disconnect, now or when closes complete later. The guard is in
    [Worker.prototype.disconnect] only. *)
Theorem disconnect_guarded (during : list (list HandleId)) (later : list HandleId) (s : State) :
  state s = "disconnecting" ∨ state s = "destroying" →
  Worker_disconnect during s = (None, s)
  ∧ settle later (Worker_disconnect during s) = (None, s).
Proof.
  intros Hstate.
  assert (E : Worker_disconnect during s = (None, s)).
  { unfold Worker_disconnect. destruct Hstate as [-> | ->]; reflexivity. }
  by rewrite E.
Qed.

Lemma disconnect_guarded_witness :
  settle [0] (Worker_disconnect [[0]] (with_state "disconnecting" one_listener))
  = (None, with_state "disconnecting" one_listener).
Proof.
  apply (disconnect_guarded [[0]] [0] (with_state "disconnecting" one_listener)).
  left. reflexivity.
Defined.

(** C2 as stated fails on the primary-initiated path: [onmessage] calls
    [_disconnect] without looking at the state, so a worker already
    'disconnecting' that receives [{ act: 'disconnect' }] closes its
    registered handle and, with nothing registered, requests the
    transport disconnect at once. *)
Lemma primary_disconnect_not_guarded :
  let message := mkInMessage "disconnect" "" 0 in
  trace (final (snd (onmessage message 0 [] (with_state "disconnecting" one_listener))))
  = trace one_listener ++ [EvSend (MsgClose "k1") None]
  ∧ trace (final (snd (onmessage message 0 [] (with_state "disconnecting" initial))))
    = trace initial ++ [EvProcessDisconnect].
Proof. cbv zeta. split; vm_compute; reflexivity. Qed.

(** ** The drain *)

Section Drains.

Implicit Types (d : Drain) (s : State) (h : HandleId) (evs : list Event).

Lemma no_final_app evs1 evs2 : no_final evs1 → no_final evs2 → no_final (evs1 ++ evs2).
Proof. apply Forall_app_2. Qed.

Lemma no_final_no_exited evs : no_final evs → no_exited evs.
Proof.
  intros Hnf. eapply Forall_impl; [exact Hnf|].
  intros e H. unfold is_final in H. by apply orb_false_iff in H as [? _].
Qed.

Lemma remove_one_length h (l : list HandleId) :
  h ∈ l → S (length (remove_one h l)) = length l.
Proof.
  induction l as [|x l IH]; intros Hin; [by apply elem_of_nil in Hin|].
  simpl. case_decide; [done|]. simpl. f_equal. apply IH.
  apply elem_of_cons in Hin as [->|Hin]; [done|exact Hin].
Qed.

Lemma remove_one_other h h' (l : list HandleId) :
  h' ≠ h → h' ∈ l → h' ∈ remove_one h l.
Proof.
  intros Hne. induction l as [|x l IH]; intros Hin; [done|].
  simpl. apply elem_of_cons in Hin as [->|Hin].
  - rewrite decide_False by done. by left.
  - case_decide; [done|]. right. by apply IH.
Qed.

(** *** What the closes leave on the trace *)

Lemma run_close_trace (c : CloseFn) h (b : bool) s :
  trace (run_close c h b s) = trace s ++ close_messages c ++ [EvNativeClose h b].
Proof.
  revert s. induction c as [|key k i orig IH]; intros s; simpl; [done|].
  rewrite IH. simpl. by rewrite <- app_assoc.
Qed.

Lemma run_close_heap (c : CloseFn) h (b : bool) s : heap (run_close c h b s) = heap s.
Proof. revert s. induction c as [|key k i orig IH]; intros s; simpl; [done|]. by rewrite IH. Qed.

Lemma close_messages_no_final (c : CloseFn) : no_final (close_messages c).
Proof. unfold close_messages, no_final. apply Forall_fmap. by apply Forall_true. Qed.

Lemma handle_close_trace h (b : bool) s :
  ∃ evs, trace (handle_close h b s).1 = trace s ++ evs ∧ no_final evs.
Proof.
  unfold handle_close. destruct (heap s !! h) as [[[c|key k i sn] o hook]|] eqn:Hh; simpl.
  - rewrite run_close_trace. eexists. split; [done|].
    apply no_final_app; [apply close_messages_no_final|]. by (unfold no_final; repeat constructor).
  - unfold faux_close. rewrite Hh. destruct key as [key|]; simpl.
    + eexists. split; [done|]. by (unfold no_final; repeat constructor).
    + exists []. rewrite app_nil_r. split; [done|constructor].
  - exists []. rewrite app_nil_r. split; [done|constructor].
Qed.

(** *** The counter *)

Lemma checkWaitingCount_inv pi t0 (b : Z) d s evs :
  primaryInitiated d = pi →
  trace s = t0 ++ evs →
  no_final evs →
  (b + Z.of_nat (length (pending d)) ≤ waitingCount d - 1)%Z →
  (0 ≤ b)%Z →
  drain_inv pi t0 b (checkWaitingCount d s).
Proof.
  intros Hpi Ht Hnf Hle Hb. unfold checkWaitingCount. cbn [waitingCount].
  case_decide as Hz.
  - assert (E : ∀ s', trace s' = trace s ++ [final_of pi] →
                ∀ d', primaryInitiated d' = pi → waitingCount d' = 0%Z →
                      pending d' = pending d → drain_inv pi t0 b (d', s')).
    { intros s' Hs' d' Hpi' Hw' Hp'. split; [done|]. exists (evs ++ [final_of pi]).
      simpl. rewrite Hs', Ht, Hw', Hp', <- app_assoc. repeat split; [lia|lia|].
      intros _. by exists evs. }
    destruct (primaryInitiated d) eqn:Hd; subst pi; by apply E.
  - split; [done|]. exists evs. simpl. repeat split; [done|lia|done|].
    by intros.
Qed.

Lemma complete_inv pi t0 (b : Z) h d s :
  (0 ≤ b)%Z → drain_inv pi t0 b (d, s) → drain_inv pi t0 b (complete h d s).
Proof.
  intros Hb Hinv. unfold complete. case_decide as Hin; [|done].
  destruct Hinv as (Hpi & evs & Ht & Hle & Hpos & _). simpl in *.
  pose proof (remove_one_length _ _ Hin) as Hlen.
  apply checkWaitingCount_inv with (evs := evs ++ [EvCloseDone h]); simpl.
  - done.
  - by rewrite Ht, <- app_assoc.
  - apply no_final_app; [apply Hpos; lia|by (unfold no_final; repeat constructor)].
  - lia.
  - done.
Qed.

Lemma complete_all_inv pi t0 (b : Z) hs d s :
  (0 ≤ b)%Z → drain_inv pi t0 b (d, s) → drain_inv pi t0 b (complete_all hs d s).
Proof.
  intros Hb. revert d s. induction hs as [|h hs IH]; intros d s Hinv; [done|].
  simpl. destruct (complete h d s) as [d1 s1] eqn:E. apply IH. rewrite <- E.
  by apply complete_inv.
Qed.

Lemma visit_inv pi t0 h d s :
  drain_inv pi t0 1 (d, s) → drain_inv pi t0 1 (visit h d s).
Proof.
  intros (Hpi & evs & Ht & Hle & Hpos & _). simpl in *.
  assert (Hnf : no_final evs) by (apply Hpos; lia).
  assert (E : ∀ d' s' evs', primaryInitiated d' = pi →
            trace s' = trace s ++ evs' → no_final evs' →
            waitingCount d' = (waitingCount d + 1)%Z →
            length (pending d') ≤ S (length (pending d)) →
            drain_inv pi t0 1 (d', s')).
  { intros d' s' evs' Hpi' Hs' Hnf' Hw' Hp'. split; [done|]. exists (evs ++ evs').
    simpl. rewrite Hs', Ht, <- app_assoc. repeat split; [lia| |lia].
    intros _. by apply no_final_app. }
  unfold visit.
  destruct (heap s !! h) as [[bd [o|] hook]|] eqn:Hh.
  - apply (E _ _ [EvOwnerClose o h]); simpl; try done.
    + by (unfold no_final; repeat constructor).
    + rewrite length_app. simpl. lia.
  - destruct (handle_close_trace h true s) as (evs' & Hs' & Hnf').
    destruct (handle_close h true s) as [s1 kept]. simpl in Hs'.
    apply (E _ _ evs'); simpl; try done.
    destruct kept; [rewrite length_app; simpl|]; lia.
  - destruct (handle_close_trace h true s) as (evs' & Hs' & Hnf').
    destruct (handle_close h true s) as [s1 kept]. simpl in Hs'.
    apply (E _ _ evs'); simpl; try done.
    destruct kept; [rewrite length_app; simpl|]; lia.
Qed.

Lemma forEach_close_inv pi t0 entries during d s :
  drain_inv pi t0 1 (d, s) → drain_inv pi t0 1 (forEach_close entries during d s).
Proof.
  revert during d s. induction entries as [|[key h] rest IH]; intros during d s Hinv; [done|].
  simpl.
  destruct (if handles_has key (handles s) then visit h d s else (d, s)) as [d1 s1] eqn:E1.
  assert (H1 : drain_inv pi t0 1 (d1, s1)).
  { rewrite <- E1. destruct (handles_has key (handles s)); [by apply visit_inv|done]. }
  destruct (complete_all (hd [] during) d1 s1) as [d2 s2] eqn:E2.
  apply IH. rewrite <- E2. by apply complete_all_inv.
Qed.

Lemma _disconnect_inv pi during s :
  drain_inv pi (trace s) 0 (_disconnect pi during s).
Proof.
  unfold _disconnect.
  destruct (forEach_close _ during _ _) as [d1 s1] eqn:E.
  assert (H1 : drain_inv pi (trace s) 1 (d1, s1)).
  { rewrite <- E. apply forEach_close_inv. split; [done|]. exists []. simpl.
    rewrite app_nil_r. repeat split; [lia|by intros; constructor|discriminate]. }
  destruct H1 as (Hpi & evs & Ht & Hle & Hpos & _). simpl in *.
  apply checkWaitingCount_inv with (evs := evs); simpl; try done; [apply Hpos|]; lia.
Qed.

(** *** What a step leaves alone *)

Lemma checkWaitingCount_frame d s :
  waitingCount (checkWaitingCount d s).1 = (waitingCount d - 1)%Z
  ∧ pending (checkWaitingCount d s).1 = pending d
  ∧ heap (checkWaitingCount d s).2 = heap s
  ∧ handles (checkWaitingCount d s).2 = handles s
  ∧ state (checkWaitingCount d s).2 = state s
  ∧ ∃ evs, trace (checkWaitingCount d s).2 = trace s ++ evs.
Proof.
  unfold checkWaitingCount. case_decide; [destruct (primaryInitiated d)|]; simpl;
    repeat split; try done; try (by eexists).
  exists []. by rewrite app_nil_r.
Qed.

Lemma complete_frame h d s :
  heap (complete h d s).2 = heap s
  ∧ handles (complete h d s).2 = handles s
  ∧ state (complete h d s).2 = state s.
Proof.
  unfold complete. case_decide; [|done].
  destruct (checkWaitingCount_frame
              (mkDrain (primaryInitiated d) (waitingCount d) (remove_one h (pending d)))
              (emit (EvCloseDone h) s)) as (_ & _ & -> & -> & -> & _).
  done.
Qed.

Lemma complete_all_frame hs d s :
  heap (complete_all hs d s).2 = heap s
  ∧ handles (complete_all hs d s).2 = handles s
  ∧ state (complete_all hs d s).2 = state s.
Proof.
  revert d s. induction hs as [|h hs IH]; intros d s; [done|].
  simpl. destruct (complete h d s) as [d1 s1] eqn:E.
  destruct (IH d1 s1) as (-> & -> & ->).
  pose proof (complete_frame h d s) as F. rewrite E in F. exact F.
Qed.

(** With nothing outstanding a completion has no callback to call. *)
Lemma complete_all_idle hs d s : pending d = [] → complete_all hs d s = (d, s).
Proof.
  intros Hp. induction hs as [|h hs IH]; [done|].
  simpl. unfold complete. rewrite Hp. rewrite decide_False; [exact IH|].
  apply not_elem_of_nil.
Qed.

(** *** The registry during the sweep *)

Lemma handles_get_delete_ne key key' m :
  key ≠ key' → handles_get key' (handles_delete key m) = handles_get key' m.
Proof.
  intros Hne. unfold handles_get, handles_delete.
  induction m as [|[k0 h0] m IH]; [done|].
  rewrite filter_cons. simpl. destruct (decide (k0 = key)) as [->|Hk].
  - rewrite decide_False by (simpl; tauto).
    rewrite (bool_decide_eq_false_2 (key = key')) by done. exact IH.
  - rewrite decide_True by done. simpl.
    destruct (bool_decide (k0 = key')); [done|exact IH].
Qed.

Lemma handles_has_delete_ne key key' m :
  key ≠ key' → handles_has key' (handles_delete key m) = handles_has key' m.
Proof. intros Hne. unfold handles_has. by rewrite handles_get_delete_ne. Qed.

Lemma handles_has_elem key h m : (key, h) ∈ m → handles_has key m = true.
Proof.
  intros Hin. unfold handles_has, handles_get. apply bool_decide_eq_true_2.
  induction m as [|[k0 h0] m IH]; [by apply elem_of_nil in Hin|].
  simpl. destruct (decide (k0 = key)) as [->|Hk].
  - rewrite bool_decide_eq_true_2 by done. by eexists.
  - rewrite bool_decide_eq_false_2 by done. apply IH.
    apply elem_of_cons in Hin as [Heq|Hin]; [congruence|done].
Qed.

Lemma run_close_has (c : CloseFn) h (b : bool) s key' :
  (∀ k, k ∈ captured_keys c → k ≠ key') →
  handles_has key' (handles (run_close c h b s)) = handles_has key' (handles s).
Proof.
  revert s. induction c as [|key k i orig IH]; intros s Hk; simpl; [done|].
  rewrite IH by (intros k0 H0; apply Hk; by right). simpl.
  apply handles_has_delete_ne. apply Hk. by left.
Qed.

Lemma visit_has h d s key' :
  (∀ k, k ∈ deleted_by (heap s) h → k ≠ key') →
  handles_has key' (handles (visit h d s).2) = handles_has key' (handles s).
Proof.
  unfold visit, deleted_by, handle_close, faux_close. intros Hk.
  destruct (heap s !! h) as [[[c|[key|] k i sn] [o|] hook]|]; simpl; try done.
  - by apply run_close_has.
  - apply handles_has_delete_ne. apply Hk. by left.
Qed.

(** *** Closes that take the callback *)

Lemma checkWaitingCount_exact hp t0 (b : Z) visited d s :
  waitingCount d = (b + 1 + Z.of_nat (length (pending d)))%Z →
  heap s = hp →
  (∃ evs, trace s = t0 ++ evs
     ∧ ∀ h, h ∈ visited →
         (∃ ev, close_call hp h = Some ev ∧ ev ∈ evs)
         ∧ (h ∈ pending d ∨ EvCloseDone h ∈ evs)) →
  drain_exact hp t0 b visited (checkWaitingCount d s).
Proof.
  intros Hw Hhp (evs & Ht & Hvis).
  destruct (checkWaitingCount_frame d s) as (Hw' & Hp' & Hh' & _ & _ & evs' & Ht').
  split; [rewrite Hw', Hp'; lia|]. split; [by rewrite Hh'|].
  exists (evs ++ evs'). split; [by rewrite Ht', Ht, <- app_assoc|].
  intros h Hin. destruct (Hvis h Hin) as ((ev & Hc & Hev) & Hdone). split.
  - exists ev. split; [done|]. apply elem_of_app. by left.
  - rewrite Hp'. destruct Hdone; [by left|right]. apply elem_of_app. by left.
Qed.

Lemma complete_exact hp t0 (b : Z) visited h d s :
  drain_exact hp t0 b visited (d, s) → drain_exact hp t0 b visited (complete h d s).
Proof.
  intros Hex. unfold complete. case_decide as Hin; [|done].
  destruct Hex as (Hw & Hhp & evs & Ht & Hvis). simpl in *.
  pose proof (remove_one_length _ _ Hin) as Hlen.
  apply checkWaitingCount_exact; simpl; [lia|done|].
  exists (evs ++ [EvCloseDone h]). split; [by rewrite Ht, <- app_assoc|].
  intros h' Hin'. destruct (Hvis h' Hin') as ((ev & Hc & Hev) & Hdone). split.
  - exists ev. split; [done|]. apply elem_of_app. by left.
  - destruct (decide (h' = h)) as [->|Hne].
    + right. apply elem_of_app. right. by left.
    + destruct Hdone as [Hp|Hd].
      * left. by apply remove_one_other.
      * right. apply elem_of_app. by left.
Qed.

Lemma complete_all_exact hp t0 (b : Z) visited hs d s :
  drain_exact hp t0 b visited (d, s) → drain_exact hp t0 b visited (complete_all hs d s).
Proof.
  revert d s. induction hs as [|h hs IH]; intros d s Hex; [done|].
  simpl. destruct (complete h d s) as [d1 s1] eqn:E. apply IH. rewrite <- E.
  by apply complete_exact.
Qed.

Lemma visit_exact hp t0 visited h d s :
  takes_callback hp h = true →
  drain_exact hp t0 1 visited (d, s) →
  drain_exact hp t0 1 (visited ++ [h]) (visit h d s).
Proof.
  intros Htakes (Hw & Hhp & evs & Ht & Hvis). simpl in *.
  assert (E : ∀ s' ev evs', heap s' = hp → close_call hp h = Some ev →
            trace s' = trace s ++ evs' → ev ∈ evs' →
            drain_exact hp t0 1 (visited ++ [h])
              (mkDrain (primaryInitiated d) (waitingCount d + 1) (pending d ++ [h]), s')).
  { intros s' ev evs' Hh' Hc Hs' Hev. split; [simpl; rewrite length_app; simpl; lia|].
    split; [done|]. exists (evs ++ evs'). simpl.
    split; [by rewrite Hs', Ht, <- app_assoc|].
    intros h' Hin'. apply elem_of_app in Hin' as [Hin'|Hin'].
    - destruct (Hvis h' Hin') as ((ev' & Hc' & Hev') & Hdone). split.
      + exists ev'. split; [done|]. apply elem_of_app. by left.
      + destruct Hdone; [left|right]; apply elem_of_app; by left.
    - apply list_elem_of_singleton in Hin' as ->. split.
      + exists ev. split; [done|]. apply elem_of_app. by right.
      + left. apply elem_of_app. right. by left. }
  unfold takes_callback in Htakes. apply bool_decide_eq_true_1 in Htakes as [ev Hc].
  unfold visit, handle_close. unfold close_call in Hc. rewrite <- Hhp in Hc.
  destruct (heap s !! h) as [[[c|key k i sn] [o|] hook]|] eqn:Hh; try discriminate.
  - injection Hc as <-. apply (E _ (EvOwnerClose o h) [EvOwnerClose o h]); try done.
    + unfold close_call. by rewrite <- Hhp, Hh.
    + by left.
  - injection Hc as <-. simpl.
    apply (E _ (EvNativeClose h true) (close_messages c ++ [EvNativeClose h true])).
    + by rewrite run_close_heap.
    + unfold close_call. by rewrite <- Hhp, Hh.
    + apply run_close_trace.
    + apply elem_of_app. right. by left.
  - injection Hc as <-. apply (E _ (EvOwnerClose o h) [EvOwnerClose o h]); try done.
    + unfold close_call. by rewrite <- Hhp, Hh.
    + by left.
Qed.

Lemma forEach_close_exact hp t0 entries during visited d s :
  NoDup (entries.*1) →
  (∀ key h, (key, h) ∈ entries →
     handles_has key (handles s) = true
     ∧ takes_callback hp h = true
     ∧ ∀ k, k ∈ deleted_by hp h → k = key) →
  drain_exact hp t0 1 visited (d, s) →
  drain_exact hp t0 1 (visited ++ entries.*2) (forEach_close entries during d s).
Proof.
  revert during visited d s.
  induction entries as [|[key h] rest IH]; intros during visited d s Hnd Hall Hex.
  { simpl. by rewrite app_nil_r. }
  rewrite fmap_cons in Hnd. apply NoDup_cons in Hnd as [Hnotin Hnd].
  destruct (Hall key h) as (Hhas & Htakes & Hdel); [by left|].
  cbn [forEach_close]. rewrite Hhas.
  pose proof (visit_exact hp t0 visited h d s Htakes Hex) as H1.
  assert (Hkeep : ∀ key' h', (key', h') ∈ rest →
            handles_has key' (handles (visit h d s).2) = true).
  { intros key' h' Hin'. rewrite visit_has.
    - apply (Hall key' h'). by right.
    - intros k Hk Heq. destruct Hex as (_ & Hhp & _). simpl in Hhp. rewrite Hhp in Hk.
      apply Hdel in Hk. subst. apply Hnotin.
      apply list_elem_of_fmap. by exists (key', h'). }
  destruct (visit h d s) as [d1 s1].
  pose proof (complete_all_exact hp t0 1 (visited ++ [h]) (hd [] during) d1 s1 H1) as H2.
  pose proof (complete_all_frame (hd [] during) d1 s1) as (_ & Hhs & _).
  destruct (complete_all (hd [] during) d1 s1) as [d2 s2].
  rewrite fmap_cons. cbn [snd]. rewrite (cons_middle h), app_assoc.
  apply IH; [done| |done].
  intros key' h' Hin'. simpl in Hhs. rewrite Hhs. split; [by eapply Hkeep|].
  destruct (Hall key' h') as (_ & ? & ?); [by right|done].
Qed.

(** *** The whole sequence *)

Lemma forallb_elem {A} (f : A → bool) (l : list A) x :
  forallb f l = true → x ∈ l → f x = true.
Proof.
  intros Hall Hin. rewrite forallb_forall in Hall. apply Hall. by apply list_elem_of_In.
Qed.

Lemma registry_ok_deleted s key h :
  registry_ok s = true → (key, h) ∈ handles s →
  ∀ k, k ∈ deleted_by (heap s) h → k = key.
Proof.
  unfold registry_ok. intros Hok Hin k Hk. apply andb_prop in Hok as [_ Hok].
  pose proof (forallb_elem _ _ _ Hok Hin) as He. unfold entry_ok in He. simpl in He.
  unfold deleted_by in Hk.
  destruct (heap s !! h) as [[[c|[key0|] ik i sn] [o|] hook]|];
    try (by apply elem_of_nil in Hk).
  - pose proof (forallb_elem _ _ _ He Hk) as E. symmetry. by apply String.eqb_eq.
  - apply list_elem_of_singleton in Hk as ->. symmetry. by apply String.eqb_eq.
Qed.

Lemma _disconnect_exact pi during s :
  registry_ok s = true →
  all_take_callback s = true →
  drain_exact (heap s) (trace s) 0 ((handles s).*2) (_disconnect pi during s).
Proof.
  intros Hok Hall. unfold _disconnect.
  assert (H1 : drain_exact (heap s) (trace s) 1 ([] ++ (handles s).*2)
                 (forEach_close (handles s) during (mkDrain pi 1 [])
                    (with_exitedAfterDisconnect true s))).
  { apply forEach_close_exact.
    - unfold registry_ok in Hok. apply andb_prop in Hok as [Hnd _].
      by apply bool_decide_eq_true_1 in Hnd.
    - intros key h Hin. split; [by eapply handles_has_elem|]. split.
      + apply (forallb_elem _ _ _ Hall Hin).
      + by apply registry_ok_deleted.
    - repeat split; try done. exists []. split; [by rewrite app_nil_r|].
      intros h Hin. by apply elem_of_nil in Hin. }
  cbn [handles with_exitedAfterDisconnect].
  destruct (forEach_close _ during _ _) as [d1 s1].
  destruct H1 as (Hw & Hhp & Hevs). simpl in *.
  apply checkWaitingCount_exact; simpl; [lia|done|done].
Qed.

Lemma _disconnect_handles pi during s : handles (_disconnect pi during s).2 = [].
Proof.
  unfold _disconnect. destruct (forEach_close _ during _ _) as [d1 s1].
  by destruct (checkWaitingCount_frame d1 (with_handles [] s1)) as (_ & _ & _ & -> & _).
Qed.

(** The close call owed to a handle is never the event that ends the
    drain, nor is a completion. *)
Lemma close_call_not_final hp h ev pi : close_call hp h = Some ev → ev ≠ final_of pi.
Proof.
  unfold close_call.
  destruct (hp !! h) as [[[c|key k i sn] [o|] hook]|]; intros E; try discriminate;
    injection E as <-; by destruct pi.
Qed.

Lemma elem_of_snoc_ne {A} (l : list A) (x y : A) : x ∈ l ++ [y] → x ≠ y → x ∈ l.
Proof.
  intros Hin Hne. apply elem_of_app in Hin as [Hin|Hin]; [done|].
  by apply list_elem_of_singleton in Hin.
Qed.

(** A drain of a well-formed registry whose closes all take the
    callback, followed to any point after the call has returned. *)
Lemma drain_settled pi during later s :
  registry_ok s = true →
  all_take_callback s = true →
  ∃ d s' evs,
    complete_all later (_disconnect pi during s).1 (_disconnect pi during s).2 = (d, s')
    ∧ trace s' = trace s ++ evs
    ∧ handles s' = []
    ∧ waitingCount d = Z.of_nat (length (pending d))
    ∧ (∀ key h, (key, h) ∈ handles s → ∃ ev, close_call (heap s) h = Some ev ∧ ev ∈ evs)
    ∧ (pending d ≠ [] → no_final evs)
    ∧ (pending d = [] →
         ∃ evs0, evs = evs0 ++ [final_of pi]
           ∧ no_final evs0
           ∧ ∀ key h, (key, h) ∈ handles s →
               EvCloseDone h ∈ evs0
               ∧ ∃ ev, close_call (heap s) h = Some ev ∧ ev ∈ evs0).
Proof.
  intros Hok Hall.
  pose proof (_disconnect_inv pi during s) as Hinv.
  pose proof (_disconnect_exact pi during s Hok Hall) as Hex.
  pose proof (_disconnect_handles pi during s) as Hhs.
  destruct (_disconnect pi during s) as [d0 s0]. cbn [fst snd] in *.
  apply (complete_all_inv pi (trace s) 0 later) in Hinv; [|done].
  apply (complete_all_exact (heap s) (trace s) 0 _ later) in Hex.
  pose proof (complete_all_frame later d0 s0) as (_ & Hhs' & _).
  destruct (complete_all later d0 s0) as [d s']. cbn [fst snd] in *.
  destruct Hinv as (Hpi & evs & Ht & Hle & Hpos & Hzero).
  destruct Hex as (Hw & _ & evs' & Ht' & Hvis). simpl in *.
  assert (evs' = evs) as -> by (rewrite Ht in Ht'; by apply app_inv_head in Ht').
  assert (Hentry : ∀ key h, (key, h) ∈ handles s → h ∈ (handles s).*2).
  { intros key h Hin. apply list_elem_of_fmap. by exists (key, h). }
  exists d, s', evs. split; [done|]. split; [done|]. split; [congruence|].
  split; [lia|]. split; [|split].
  - intros key h Hin. apply (Hvis h). by eapply Hentry.
  - intros Hp. apply Hpos. destruct (pending d); [done|simpl in *; lia].
  - intros Hp. rewrite Hp in *. simpl in *.
    destruct Hzero as (evs0 & -> & Hnf0); [lia|].
    exists evs0. split; [done|]. split; [done|].
    intros key h Hin. destruct (Hvis h (Hentry _ _ Hin)) as ((ev & Hc & Hev) & Hdone).
    split.
    + destruct Hdone as [Hp'|Hd]; [by apply elem_of_nil in Hp'|].
      apply (elem_of_snoc_ne _ _ _ Hd). by destruct pi.
    + exists ev. split; [done|].
      apply (elem_of_snoc_ne _ _ _ Hev). by eapply close_call_not_final.
Qed.

End Drains.

(** ** C10: a failed round-robin reply *)

Section Leak.

Variable env : Env.
Variables (indexesKey : string) (index : nat).

Lemma run_close_live (c : CloseFn) h (b : bool) s :
  (indexesKey, index) ∉ captured_pairs c →
  live indexesKey index (indexes s) →
  live indexesKey index (indexes (run_close c h b s)).
Proof.
  revert s. induction c as [|key k i orig IH]; intros s Hnot Hlive; simpl; [done|].
  simpl in Hnot. apply not_elem_of_cons in Hnot as [Hne Hnot].
  apply IH; [done|]. simpl.
  apply (live_alloc_step indexesKey index (Release k i)); [congruence|done].
Qed.

Lemma handle_close_keeps h (b : bool) s :
  live indexesKey index (indexes s) →
  unclaimed indexesKey index s →
  live indexesKey index (indexes (handle_close h b s).1)
  ∧ unclaimed indexesKey index (handle_close h b s).1.
Proof.
  intros Hlive Hun. unfold handle_close, faux_close.
  destruct (heap s !! h) as [[[c|[key|] k i sn] o hook]|] eqn:Hh; simpl; try done.
  - pose proof (map_Forall_lookup_1 _ _ _ _ Hun Hh) as Hnot. simpl in Hnot.
    split; [by apply run_close_live|].
    unfold unclaimed. by rewrite run_close_heap.
  - pose proof (map_Forall_lookup_1 _ _ _ _ Hun Hh) as Hnot.
    unfold releases in Hnot. simpl in Hnot. apply not_elem_of_cons in Hnot as [Hne _].
    split.
    + apply (live_alloc_step indexesKey index (Release k i)); [congruence|done].
    + unfold unclaimed. simpl. apply map_Forall_insert_2; [|done].
      unfold releases. simpl. apply not_elem_of_nil.
Qed.

Lemma on_query_reply_keeps obj k i reply handle s :
  replies_to indexesKey index (OpReply obj k i reply handle) = false →
  unclaimed indexesKey index s →
  unclaimed indexesKey index (final (on_query_reply obj k i reply handle s)).
Proof.
  intros Hrep Hun. simpl in Hrep. apply bool_decide_eq_false_1 in Hrep.
  assert (Hne : (indexesKey, index) ≠ (k, i)) by (intros [= -> ->]; by apply Hrep).
  unfold on_query_reply.
  assert (Hun1 : unclaimed indexesKey index
            (if _setServerData obj then emit (EvSetServerData (reply_data reply)) s else s)).
  { by destruct (_setServerData obj). }
  revert Hun1. generalize (if _setServerData obj
                           then emit (EvSetServerData (reply_data reply)) s else s).
  intros s1 Hun1. destruct handle as [h|].
  - unfold shared.
    assert (Hpatched : unclaimed indexesKey index
              (with_heap (<[h := match heap s1 !! h with
                     | Some obj0 => mkHandle (Real (SharedClose (reply_key reply) k i
                                       (close_binding (heap s1 !! h))))
                                      (owner obj0) (onconnection_hook obj0)
                     | None => mkHandle (Real (SharedClose (reply_key reply) k i
                                       (close_binding (heap s1 !! h)))) None false
                     end]> (heap s1)) s1)).
    { unfold unclaimed. simpl. apply map_Forall_insert_2; [|done].
      assert (Hold : (indexesKey, index) ∉ captured_pairs (close_binding (heap s1 !! h))).
      { destruct (heap s1 !! h) as [[[c|key0 k0 i0 sn] o hook]|] eqn:Hh; simpl;
          try apply not_elem_of_nil.
        apply (map_Forall_lookup_1 _ _ _ _ Hun1 Hh). }
      destruct (heap s1 !! h); unfold releases; simpl;
        apply not_elem_of_cons; by split. }
    destruct (handles_has _ _); exact Hpatched.
  - unfold rr. case_decide; [done|].
    assert (Hnew : unclaimed indexesKey index
              (with_heap (<[fresh (dom (heap s1)) :=
                              mkHandle (Faux (Some (reply_key reply)) k i (reply_sockname reply))
                                None false]> (heap s1)) s1)).
    { unfold unclaimed. simpl. apply map_Forall_insert_2; [|done].
      unfold releases. simpl. apply not_elem_of_cons. split; [done|apply not_elem_of_nil]. }
    destruct (handles_has _ _); exact Hnew.
Qed.

Lemma worker_step_keeps op s :
  replies_to indexesKey index op = false →
  live indexesKey index (indexes s) →
  unclaimed indexesKey index s →
  live indexesKey index (indexes (worker_step env op s))
  ∧ unclaimed indexesKey index (worker_step env op s).
Proof.
  intros Hrep Hlive Hun. destruct op as [obj options|obj k i r h|h b]; cbn [worker_step].
  - split.
    + rewrite _getServer_indexes.
      by apply (live_alloc_step indexesKey index (Query (indexesKey_of env options))).
    + unfold unclaimed, _getServer. by destruct (allocateIndex _ _).
  - split; [by rewrite on_query_reply_indexes|by apply on_query_reply_keeps].
  - by apply handle_close_keeps.
Qed.

Lemma run_ops_keeps ops s :
  forallb (λ op, negb (replies_to indexesKey index op)) ops = true →
  live indexesKey index (indexes s) →
  unclaimed indexesKey index s →
  live indexesKey index (indexes (run_ops env ops s)).
Proof.
  revert s. induction ops as [|op rest IH]; intros s Hops Hlive Hun; [done|].
  simpl in Hops. apply andb_prop in Hops as [Hop Hrest].
  apply negb_true_iff in Hop.
  destruct (worker_step_keeps op s Hop Hlive Hun) as [Hlive' Hun'].
  unfold run_ops. simpl. by apply IH.
Qed.

End Leak.

(** C10, as amended. A round-robin reply with a nonzero errno returns
    after calling the callback with [(errno, null)]: the registry, the
    objects and the allocator are as before, so no handle was created
    or registered and the reply releases nothing. If the index of the
    query is live when the reply arrives and the close of no existing
    handle captured the same [(indexesKey, index)] pair, it stays live
    through every later run of queries, replies to other queries and
    closes of handles. *)
Theorem rr_error_keeps_index (env : Env) (message : Reply) (indexesKey : string)
    (index : nat) (s : State) (later : list WorkerOp) :
  reply_errno message ≠ 0%Z →
  live indexesKey index (indexes s) →
  unclaimed indexesKey index s →
  forallb (λ op, negb (replies_to indexesKey index op)) later = true →
  rr message indexesKey index s = Returned (emit (EvCallback (reply_errno message) None) s)
  ∧ handles (final (rr message indexesKey index s)) = handles s
  ∧ heap (final (rr message indexesKey index s)) = heap s
  ∧ indexes (final (rr message indexesKey index s)) = indexes s
  ∧ live indexesKey index
      (indexes (run_ops env later (final (rr message indexesKey index s)))).
Proof.
  intros Herr Hlive Hun Hlater.
  assert (E : rr message indexesKey index s
              = Returned (emit (EvCallback (reply_errno message) None) s)).
  { unfold rr. by case_decide. }
  rewrite E. simpl. repeat split; try done. by apply run_ops_keeps.
Qed.

Lemma rr_error_keeps_index_witness :
  trace (final (rr (reply_failed "k1") key8000 0 (_getServer linux server0 tcp8000 initial)))
  = trace (_getServer linux server0 tcp8000 initial) ++ [EvCallback (-98) None]
  ∧ live key8000 0
      (indexes (run_ops linux after_failure
         (final (rr (reply_failed "k1") key8000 0
                   (_getServer linux server0 tcp8000 initial))))).
Proof.
  destruct (rr_error_keeps_index linux (reply_failed "k1") key8000 0
              (_getServer linux server0 tcp8000 initial) after_failure)
    as (E & _ & _ & _ & L).
  - vm_compute. discriminate.
  - eexists. split; vm_compute; reflexivity.
  - apply (bool_decide_unpack _). vm_compute. exact I.
  - vm_compute. reflexivity.
  - split; [by rewrite E|exact L].
Defined.

(** C10 as stated fails when a handle holds the pair of the failed
    query: the tuple's first query got index 0 and the shared handle 7,
    whose close collected the tuple's entry, so the next query got
    index 0 again. After its error reply the index is live, and a second
    [close()] of handle 7, whose wrapper is not guarded, releases it:
    the entry is collected and the index is not live. *)
Lemma rr_error_index_released_by_stale_close :
  queried linux key8000
    [ OpGetServer server0 tcp8000;
      OpReply server0 key8000 0 (mkReply 0 "k2" None JNull) (Some 7);
      OpClose 7 false;
      OpGetServer server0 tcp8000 ] initial = [0; 0]
  ∧ rr (reply_failed "k1") key8000 0 second_query
    = Returned (emit (EvCallback (-98) None) second_query)
  ∧ live key8000 0 (indexes (final (rr (reply_failed "k1") key8000 0 second_query)))
  ∧ indexes (handle_close 7 false (final (rr (reply_failed "k1") key8000 0 second_query))).1
    = ∅
  ∧ ¬ live key8000 0
        (indexes (handle_close 7 false
                    (final (rr (reply_failed "k1") key8000 0 second_query))).1).
Proof.
  assert (E : indexes (handle_close 7 false
                         (final (rr (reply_failed "k1") key8000 0 second_query))).1 = ∅)
    by (vm_compute; reflexivity).
  split; [vm_compute; reflexivity|]. split; [vm_compute; reflexivity|].
  split; [eexists; split; vm_compute; reflexivity|]. split; [exact E|].
  rewrite E. intros (e & He & _). by rewrite lookup_empty in He.
Qed.

(** ** The registry stays well formed *)

Section Registry.

Implicit Types (s : State) (m : list (Key * HandleId)) (hp : gmap HandleId HandleObj).

Lemma registry_ok_spec s :
  registry_ok s = true ↔
  NoDup (handles s).*1 ∧ ∀ e, e ∈ handles s → entry_ok (heap s) e = true.
Proof.
  unfold registry_ok. rewrite andb_true_iff, bool_decide_eq_true, forallb_forall.
  split; intros [Hnd Hall]; (split; [done|]); intros e He; apply Hall;
    by apply list_elem_of_In.
Qed.

Lemma handles_delete_elem key m e : e ∈ handles_delete key m → e ∈ m.
Proof. unfold handles_delete. intros H. by apply list_elem_of_filter in H as [_ H]. Qed.

Lemma handles_delete_NoDup key m : NoDup m.*1 → NoDup (handles_delete key m).*1.
Proof.
  unfold handles_delete. induction m as [|[k0 h0] m IH]; [done|].
  rewrite fmap_cons. intros Hnd. apply NoDup_cons in Hnd as [Hnotin Hnd].
  rewrite filter_cons. case_decide; [|by apply IH].
  rewrite fmap_cons. apply NoDup_cons. split; [|by apply IH].
  intros Hin. apply Hnotin. apply list_elem_of_fmap in Hin as (e & -> & He).
  apply list_elem_of_fmap. exists e. split; [done|]. by apply list_elem_of_filter in He as [_ He].
Qed.

Lemma handles_has_false_notin key m : handles_has key m = false → key ∉ m.*1.
Proof.
  intros Hhas Hin. apply list_elem_of_fmap in Hin as ([k h] & -> & He).
  simpl in Hhas. by rewrite (handles_has_elem _ _ _ He) in Hhas.
Qed.

Lemma handles_set_new key h m : handles_has key m = false → handles_set key h m = m ++ [(key, h)].
Proof.
  intros Hhas. pose proof (handles_has_false_notin _ _ Hhas) as Hnotin. clear Hhas.
  induction m as [|[k0 h0] m IH]; [done|].
  rewrite fmap_cons in Hnotin. apply not_elem_of_cons in Hnotin as [Hne Hnotin].
  simpl. rewrite decide_False by done. by rewrite IH.
Qed.

(** An entry that was fine stays so when the heap changes at an object
    it does not point to, or at one whose body is kept. *)
Lemma entry_ok_insert_ne hp h obj e :
  snd e ≠ h → entry_ok (<[h := obj]> hp) e = entry_ok hp e.
Proof. intros Hne. unfold entry_ok. by rewrite lookup_insert_ne. Qed.

Lemma entry_ok_points hp e : entry_ok hp e = true → is_Some (hp !! snd e).
Proof. unfold entry_ok. destruct (hp !! snd e); [by eexists|done]. Qed.

Lemma registry_ok_extend s key h obj :
  registry_ok s = true →
  heap s !! h = None →
  entry_ok (<[h := obj]> (heap s)) (key, h) = true →
  registry_ok (with_heap (<[h := obj]> (heap s)) s) = true
  ∧ (handles_has key (handles s) = false →
     registry_ok (with_handles (handles_set key h (handles s))
                    (with_heap (<[h := obj]> (heap s)) s)) = true).
Proof.
  intros Hok Hnew Hentry. apply registry_ok_spec in Hok as [Hnd Hall].
  assert (Hold : ∀ e, e ∈ handles s → entry_ok (<[h := obj]> (heap s)) e = true).
  { intros e He. rewrite entry_ok_insert_ne; [by apply Hall|].
    intros <-. destruct (entry_ok_points _ _ (Hall e He)) as [? Hsome]. congruence. }
  split.
  - apply registry_ok_spec. by split.
  - intros Hhas. apply registry_ok_spec. simpl. rewrite (handles_set_new _ _ _ Hhas). split.
    + rewrite fmap_app. apply NoDup_app. split; [done|]. split.
      * intros k Hk Hk'. apply list_elem_of_singleton in Hk'. simpl in Hk'. subst k.
        by apply (handles_has_false_notin _ _ Hhas).
      * apply NoDup_singleton.
    + intros e He. apply elem_of_app in He as [He|He]; [by apply Hold|].
      by apply list_elem_of_singleton in He as ->.
Qed.

Lemma registry_ok_rr r k i s : registry_ok s = true → registry_ok (final (rr r k i s)) = true.
Proof.
  intros Hok. unfold rr. case_decide; [done|].
  destruct (registry_ok_extend s (reply_key r) (fresh (dom (heap s)))
              (mkHandle (Faux (Some (reply_key r)) k i (reply_sockname r)) None false) Hok)
    as [Hthrown Hset].
  - apply fresh_heap_lookup.
  - unfold entry_ok. simpl. rewrite lookup_insert_eq. apply String.eqb_refl.
  - cbn [handles with_heap].
    destruct (handles_has (reply_key r) (handles s)) eqn:Hhas; [exact Hthrown|].
    by apply Hset.
Qed.

Lemma registry_ok_shared r h k i s :
  heap s !! h = None →
  registry_ok s = true → registry_ok (final (shared r h k i s)) = true.
Proof.
  intros Hnew Hok. unfold shared. rewrite Hnew. cbn [close_binding].
  destruct (registry_ok_extend s (reply_key r) h
              (mkHandle (Real (SharedClose (reply_key r) k i NativeClose)) None false)
              Hok Hnew)
    as [Hthrown Hset].
  - unfold entry_ok. simpl. rewrite lookup_insert_eq. simpl.
    by rewrite String.eqb_refl.
  - cbn [handles with_heap].
    destruct (handles_has (reply_key r) (handles s)) eqn:Hhas; [exact Hthrown|].
    by apply Hset.
Qed.

Lemma run_close_registry (c : CloseFn) h (b : bool) s :
  (NoDup (handles s).*1 → NoDup (handles (run_close c h b s)).*1)
  ∧ ∀ e, e ∈ handles (run_close c h b s) → e ∈ handles s.
Proof.
  revert s. induction c as [|key k i orig IH]; intros s; simpl; [done|].
  destruct (IH (with_indexes (removeIndexesKey k i (indexes s))
                  (with_handles (handles_delete key (handles s))
                     (send (MsgClose key) None s)))) as [Hnd Hsub]. simpl in *.
  split.
  - intros H. by apply Hnd, handles_delete_NoDup.
  - intros e He. by eapply handles_delete_elem, Hsub.
Qed.

Lemma registry_ok_handle_close h (b : bool) s :
  registry_ok s = true → registry_ok (handle_close h b s).1 = true.
Proof.
  intros Hok. unfold handle_close, faux_close.
  destruct (heap s !! h) as [[[c|[key|] k i sn] o hook]|] eqn:Hh; simpl; try done.
  - apply registry_ok_spec in Hok as [Hnd Hall].
    destruct (run_close_registry c h b s) as [Hnd' Hsub].
    apply registry_ok_spec. rewrite run_close_heap. split; [by apply Hnd'|].
    intros e He. by apply Hall, Hsub.
  - apply registry_ok_spec in Hok as [Hnd Hall]. apply registry_ok_spec. simpl. split.
    + by apply handles_delete_NoDup.
    + intros e He. apply handles_delete_elem in He.
      destruct (decide (snd e = h)) as [Heq|Hne].
      * unfold entry_ok. by rewrite Heq, lookup_insert_eq.
      * rewrite entry_ok_insert_ne by done. by apply Hall.
Qed.

Lemma registry_ok_listener_attach h o s :
  registry_ok s = true → registry_ok (listener_attach h o s) = true.
Proof.
  intros Hok. apply registry_ok_spec in Hok as [Hnd Hall]. apply registry_ok_spec.
  unfold listener_attach. simpl. split; [done|].
  intros e He. specialize (Hall e He). unfold entry_ok in *.
  rewrite lookup_alter. case_decide as Heq; [|done]. subst h.
  by destruct (heap s !! snd e) as [[bd o' hook]|].
Qed.

Lemma registry_ok_worker_step env op s :
  match op with
  | OpReply _ _ _ _ (Some h) => heap s !! h = None
  | _ => True
  end →
  registry_ok s = true → registry_ok (worker_step env op s) = true.
Proof.
  intros Hnew Hok. destruct op as [obj options|obj k i r [h|]|h b]; cbn [worker_step].
  - unfold _getServer. by destruct (allocateIndex _ _).
  - unfold on_query_reply. destruct (_setServerData obj); by apply registry_ok_shared.
  - unfold on_query_reply. destruct (_setServerData obj); by apply registry_ok_rr.
  - by apply registry_ok_handle_close.
Qed.

(** Every state a run of registrations, replies and closes reaches from
    a well-formed registry has one. *)
Lemma registry_ok_run_ops env ops s :
  new_handles env ops s → registry_ok s = true → registry_ok (run_ops env ops s) = true.
Proof.
  revert s. induction ops as [|op rest IH]; intros s Hnew Hok; [done|].
  destruct Hnew as [Hop Hrest]. unfold run_ops. simpl. apply IH; [done|].
  by apply registry_ok_worker_step.
Qed.

Lemma registry_ok_initial : registry_ok initial = true.
Proof. reflexivity. Qed.

End Registry.

(** ** C1: a worker-initiated disconnect drains the registry *)

Lemma Worker_disconnect_enters during s :
  state s ≠ "disconnecting" → state s ≠ "destroying" →
  Worker_disconnect during s
  = (Some (_disconnect false during (with_state "disconnecting" s)).1,
     (_disconnect false during (with_state "disconnecting" s)).2).
Proof.
  intros H1 H2. unfold Worker_disconnect.
  apply String.eqb_neq in H1, H2. rewrite H1, H2. simpl.
  by destruct (_disconnect false during (with_state "disconnecting" s)).
Qed.




(** Apart from the guard: a registered faux handle that has no owner
    (the state [rr] leaves it in; the owner is recorded by the listener
    if and when it adopts the handle) stalls the drain. [_disconnect]
    passes [checkWaitingCount] to the handle's own [close], which
    declares no parameter, where the close wrapped by [shared] hands its
    arguments on. The handle is closed, nothing is outstanding, and
    whatever completes and whenever, the counter stays at 1 and no
    exitedAfterDisconnect is sent. *)
Lemma disconnect_stalls_on_ownerless_faux_handle :
  registry_ok one_listener = true
  ∧ all_take_callback one_listener = false
  ∧ trace (settle [] (Worker_disconnect [] one_listener)).2
    = trace one_listener ++ [EvSend (MsgClose "k1") None]
  ∧ ∀ during later,
      settle later (Worker_disconnect during one_listener)
      = (Some (mkDrain false 1 []),
         (settle [] (Worker_disconnect [] one_listener)).2).
Proof.
  split; [vm_compute; reflexivity|]. split; [vm_compute; reflexivity|].
  split; [vm_compute; reflexivity|].
  intros during later.
  assert (E : Worker_disconnect during one_listener
              = (Some (mkDrain false 1 []), (Worker_disconnect [] one_listener).2)).
  { unfold Worker_disconnect.
    change (state one_listener) with "online". cbn [String.eqb Ascii.eqb Bool.eqb negb andb].
    unfold _disconnect.
    change (handles (with_exitedAfterDisconnect true (with_state "disconnecting" one_listener)))
      with [("k1", 0)].
    cbn [forEach_close].
    change (handles_has "k1" (handles (with_exitedAfterDisconnect true
              (with_state "disconnecting" one_listener)))) with true.
    cbv iota.
    pose proof (surjective_pairing
                  (visit 0 (mkDrain false 1 [])
                     (with_exitedAfterDisconnect true
                        (with_state "disconnecting" one_listener)))) as Hv.
    assert (Hd1 : (visit 0 (mkDrain false 1 [])
                     (with_exitedAfterDisconnect true
                        (with_state "disconnecting" one_listener))).1
                  = mkDrain false 2 []) by (vm_compute; reflexivity).
    rewrite Hd1 in Hv. rewrite Hv.
    rewrite complete_all_idle by reflexivity.
    vm_compute. reflexivity. }
  rewrite E. cbn [settle]. rewrite !complete_all_idle by reflexivity.
  vm_compute. reflexivity.
Qed.

(** ** C6: a primary-initiated disconnect *)

(** C6. On [{ act: 'disconnect' }] from the primary the worker runs the
    drain with [primaryInitiated] true. Whatever the registry holds and
    in whatever order closes complete, no exitedAfterDisconnect is sent
    at any point of the sequence; when the counter reaches 0 the worker
    has called [process.disconnect()] itself, once, as the last thing
    done; while the counter is not 0 it has not. With a well-formed
    registry whose closes take the callback, the counter is 0 as soon as
    no close is outstanding. *)
Theorem primary_disconnect_skips_handshake (message : InMessage) (handle : HandleId)
    (during : list (list HandleId)) (later : list HandleId) (s : State) :
  act message = "disconnect" →
  onmessage message handle during s
  = (Some (_disconnect true during s).1, Returned (_disconnect true during s).2)
  ∧ ∃ d s' evs,
      complete_all later (_disconnect true during s).1 (_disconnect true during s).2 = (d, s')
      ∧ trace s' = trace s ++ evs
      ∧ no_exited evs
      ∧ (waitingCount d = 0%Z →
           ∃ evs0, evs = evs0 ++ [EvProcessDisconnect] ∧ no_final evs0)
      ∧ (waitingCount d ≠ 0%Z → no_final evs)
      ∧ (registry_ok s = true → all_take_callback s = true →
           pending d = [] → waitingCount d = 0%Z).
Proof.
  intros Hact. split.
  { unfold onmessage. rewrite Hact. cbn [String.eqb Ascii.eqb Bool.eqb].
    by destruct (_disconnect true during s). }
  pose proof (_disconnect_inv true during s) as Hinv.
  destruct (_disconnect true during s) as [d0 s0] eqn:Hd0. cbn [fst snd].
  apply (complete_all_inv true (trace s) 0 later) in Hinv; [|done].
  destruct (complete_all later d0 s0) as [d s'] eqn:Hrun.
  destruct Hinv as (Hpi & evs & Ht & Hle & Hpos & Hzero). simpl in *.
  exists d, s', evs. split; [done|]. split; [done|].
  assert (Hcases : (0 < waitingCount d)%Z ∨ waitingCount d = 0%Z) by lia.
  split; [|split; [|split]].
  - destruct Hcases as [Hp|Hz].
    + by apply no_final_no_exited, Hpos.
    + destruct (Hzero Hz) as (evs0 & -> & Hnf0).
      apply Forall_app_2; [by apply no_final_no_exited|]. by repeat constructor.
  - exact Hzero.
  - intros Hnz. apply Hpos. lia.
  - intros Hok Hall Hp.
    destruct (drain_settled true during later s Hok Hall)
      as (d' & s'' & evs' & Hrun' & _ & _ & Hw & _).
    rewrite Hd0 in Hrun'. cbn [fst snd] in Hrun'. rewrite Hrun in Hrun'.
    injection Hrun' as <- <-. rewrite Hw, Hp. reflexivity.
Qed.

Lemma primary_disconnect_skips_handshake_witness :
  trace (final (snd (onmessage (mkInMessage "disconnect" "" 0) 0 [[0]; [7]] two_listeners)))
  = trace two_listeners
    ++ [EvOwnerClose 100 0; EvCloseDone 0; EvSend (MsgClose "k2") None;
        EvNativeClose 7 true; EvCloseDone 7; EvProcessDisconnect]
  ∧ ∃ d s' evs,
      complete_all [7; 0] (_disconnect true [] two_listeners).1
        (_disconnect true [] two_listeners).2 = (d, s')
      ∧ trace s' = trace two_listeners ++ evs
      ∧ no_exited evs
      ∧ (waitingCount d = 0%Z →
           ∃ evs0, evs = evs0 ++ [EvProcessDisconnect] ∧ no_final evs0)
      ∧ (waitingCount d ≠ 0%Z → no_final evs)
      ∧ (registry_ok two_listeners = true → all_take_callback two_listeners = true →
           pending d = [] → waitingCount d = 0%Z).
Proof.
  split; [vm_compute; reflexivity|].
  apply (primary_disconnect_skips_handshake (mkInMessage "disconnect" "" 0) 0 [] [7; 0]
           two_listeners).
  reflexivity.
Defined.

(** * Further properties *)

(** ** The allocator's bookkeeping *)

Section Bookkeeping.

Implicit Types (ix : Indexes) (k : string) (i : nat).

Lemma indexes_ok_allocate k ix : indexes_ok ix → indexes_ok (allocateIndex k ix).2.
Proof.
  intros Hok. unfold allocateIndex. simpl. apply map_Forall_insert_2; [|done].
  simpl. split; [set_solver|].
  apply set_Forall_union; [apply set_Forall_singleton; lia|].
  destruct (ix !! k) as [e|] eqn:Hk; simpl; [|apply set_Forall_empty].
  destruct (map_Forall_lookup_1 _ _ _ _ Hok Hk) as [_ Hlt].
  intros i Hi. specialize (Hlt i Hi). simpl in Hlt. lia.
Qed.

Lemma indexes_ok_remove k i ix : indexes_ok ix → indexes_ok (removeIndexesKey k i ix).
Proof.
  intros Hok. unfold removeIndexesKey. destruct (ix !! k) as [e|] eqn:Hk; [|done].
  case_decide as Hsz; [by apply map_Forall_delete|].
  apply map_Forall_insert_2; [|done]. simpl.
  destruct (map_Forall_lookup_1 _ _ _ _ Hok Hk) as [_ Hlt]. split.
  - intros Hempty. apply Hsz. rewrite Hempty. reflexivity.
  - intros j Hj. apply Hlt. by apply elem_of_difference in Hj as [Hj _].
Qed.

Lemma indexes_ok_run_close (c : CloseFn) h (b : bool) s :
  indexes_ok (indexes s) → indexes_ok (indexes (run_close c h b s)).
Proof.
  revert s. induction c as [|key k i orig IH]; intros s Hok; simpl; [done|].
  apply IH. simpl. by apply indexes_ok_remove.
Qed.

Lemma indexes_ok_handle_close h (b : bool) s :
  indexes_ok (indexes s) → indexes_ok (indexes (handle_close h b s).1).
Proof.
  intros Hok. unfold handle_close, faux_close.
  destruct (heap s !! h) as [[[c|[key|] k i sn] o hook]|]; simpl; try done.
  - by apply indexes_ok_run_close.
  - by apply indexes_ok_remove.
Qed.

Lemma indexes_ok_worker_step env op s :
  indexes_ok (indexes s) → indexes_ok (indexes (worker_step env op s)).
Proof.
  intros Hok. destruct op as [obj options|obj k i r h|h b]; cbn [worker_step].
  - rewrite _getServer_indexes. by apply indexes_ok_allocate.
  - by rewrite on_query_reply_indexes.
  - by apply indexes_ok_handle_close.
Qed.

Lemma indexes_ok_run_ops env ops s :
  indexes_ok (indexes s) → indexes_ok (indexes (run_ops env ops s)).
Proof.
  revert s. induction ops as [|op rest IH]; intros s Hok; [done|].
  unfold run_ops. simpl. apply IH. by apply indexes_ok_worker_step.
Qed.

End Bookkeeping.

(** X1. In every state a worker reaches from start-up by registering
    listeners, receiving replies and closing handles, in any order, the
    allocator's bookkeeping is sound: a tuple has an entry only while
    one of its indices is live, every live index is below the entry's
    [nextIndex], and therefore the index the next [_getServer] call on
    any tuple obtains is not live when it is handed out, and is live
    right after. *)
Theorem allocator_sound_over_runs (env : Env) (ops : list WorkerOp) (obj : ServerObj)
    (options : ServerOptions) :
  indexes_ok (indexes (run_ops env ops initial))
  ∧ ¬ live (indexesKey_of env options)
        (queried_index env options (run_ops env ops initial))
        (indexes (run_ops env ops initial))
  ∧ live (indexesKey_of env options)
      (queried_index env options (run_ops env ops initial))
      (indexes (_getServer env obj options (run_ops env ops initial))).
Proof.
  assert (Hok : indexes_ok (indexes (run_ops env ops initial))).
  { apply indexes_ok_run_ops. apply map_Forall_empty. }
  split; [exact Hok|]. split.
  - unfold queried_index. rewrite allocateIndex_fst.
    intros (e & He & Hi). unfold next_of in Hi. rewrite He in Hi.
    destruct (map_Forall_lookup_1 _ _ _ _ Hok He) as [_ Hlt].
    specialize (Hlt _ Hi). simpl in Hlt. lia.
  - rewrite _getServer_indexes. apply allocateIndex_live.
Qed.

(** X2. Registering on a tuple and releasing the index at once is a
    round trip on the live sets: a tuple that had no bookkeeping has
    none again (the allocator is exactly as before), and a tuple that
    had some keeps its live set, with [nextIndex] one higher. Releasing
    the same index a second time changes nothing. *)
Theorem allocate_release_round_trip (indexesKey : string) (ix : Indexes) :
  indexes_ok ix →
  removeIndexesKey indexesKey (allocateIndex indexesKey ix).1 (allocateIndex indexesKey ix).2
  = match ix !! indexesKey with
    | None => ix
    | Some indexSet =>
        <[indexesKey := mkIndexSet (S (nextIndex indexSet)) (set indexSet)]> ix
    end
  ∧ ∀ index,
      removeIndexesKey indexesKey index (removeIndexesKey indexesKey index ix)
      = removeIndexesKey indexesKey index ix.
Proof.
  intros Hok. split.
  - unfold allocateIndex, removeIndexesKey. simpl. rewrite lookup_insert_eq. simpl.
    destruct (ix !! indexesKey) as [e|] eqn:Hk; simpl.
    + destruct (map_Forall_lookup_1 _ _ _ _ Hok Hk) as [Hne Hlt].
      assert (Hfresh : nextIndex e ∉ set e).
      { intros Hin. specialize (Hlt _ Hin). simpl in Hlt. lia. }
      assert (Hset : ({[nextIndex e]} ∪ set e) ∖ {[nextIndex e]} = set e).
      { apply set_eq. intros j. rewrite elem_of_difference, elem_of_union, !elem_of_singleton.
        split; [intros [[->|Hj] Hne']; [done|exact Hj]|].
        intros Hj. split; [by right|]. by intros ->. }
      rewrite Hset. rewrite decide_False.
      * by rewrite insert_insert_eq.
      * intros Hsz. apply size_empty_inv in Hsz. apply Hne. by apply leibniz_equiv.
    + assert (Hset : ({[0]} ∪ (∅ : gset nat)) ∖ {[0]} = ∅).
      { apply set_eq. intros j. rewrite elem_of_difference, elem_of_union, !elem_of_singleton.
        split; [intros [[->|Hj] Hne']; [done|by apply not_elem_of_empty in Hj]|].
        intros Hj. by apply not_elem_of_empty in Hj. }
      rewrite Hset. case_decide as Hz; [by apply delete_insert_id|].
      destruct Hz. reflexivity.
  - intros index. unfold removeIndexesKey at 2 3.
    destruct (ix !! indexesKey) as [e|] eqn:Hk.
    + case_decide as Hsz.
      * unfold removeIndexesKey. by rewrite lookup_delete_eq.
      * unfold removeIndexesKey. rewrite lookup_insert_eq. simpl.
        assert (Hset : set e ∖ {[index]} ∖ {[index]} = set e ∖ {[index]}).
        { apply set_eq. intros j. rewrite !elem_of_difference. tauto. }
        rewrite Hset. rewrite decide_False by done. by rewrite insert_insert_eq.
    + unfold removeIndexesKey. by rewrite Hk.
Qed.

Lemma allocate_release_round_trip_witness :
  removeIndexesKey key8000
    (allocateIndex key8000 (indexes (_getServer linux server0 tcp8000 initial))).1
    (allocateIndex key8000 (indexes (_getServer linux server0 tcp8000 initial))).2
  = match indexes (_getServer linux server0 tcp8000 initial) !! key8000 with
    | None => indexes (_getServer linux server0 tcp8000 initial)
    | Some indexSet =>
        <[key8000 := mkIndexSet (S (nextIndex indexSet)) (set indexSet)]>
          (indexes (_getServer linux server0 tcp8000 initial))
    end
  ∧ ∀ index,
      removeIndexesKey key8000 index
        (removeIndexesKey key8000 index (indexes (_getServer linux server0 tcp8000 initial)))
      = removeIndexesKey key8000 index (indexes (_getServer linux server0 tcp8000 initial)).
Proof.
  apply (allocate_release_round_trip key8000
           (indexes (_getServer linux server0 tcp8000 initial))).
  apply (bool_decide_unpack _). vm_compute. exact I.
Defined.

(** ** The worker's state through the shutdown sequences *)

Section WorkerFields.

Implicit Types (d : Drain) (s : State) (h : HandleId).

Lemma same_worker_refl s : same_worker s s.
Proof. by repeat split. Qed.

Lemma same_worker_trans s1 s2 s3 : same_worker s1 s2 → same_worker s2 s3 → same_worker s1 s3.
Proof. intros (? & ? & ?) (? & ? & ?). repeat split; congruence. Qed.

Lemma run_close_same_worker (c : CloseFn) h (b : bool) s : same_worker s (run_close c h b s).
Proof.
  revert s. induction c as [|key k i orig IH]; intros s; simpl; [by repeat split|].
  eapply same_worker_trans; [|apply IH]. by repeat split.
Qed.

Lemma handle_close_same_worker h (b : bool) s : same_worker s (handle_close h b s).1.
Proof.
  unfold handle_close, faux_close.
  destruct (heap s !! h) as [[[c|[key|] k i sn] o hook]|]; simpl;
    try apply same_worker_refl; [apply run_close_same_worker|by repeat split].
Qed.

Lemma checkWaitingCount_same_worker d s : same_worker s (checkWaitingCount d s).2.
Proof.
  unfold checkWaitingCount. case_decide; [destruct (primaryInitiated d)|]; by repeat split.
Qed.

Lemma complete_same_worker h d s : same_worker s (complete h d s).2.
Proof.
  unfold complete. case_decide; [|apply same_worker_refl].
  eapply same_worker_trans; [|apply checkWaitingCount_same_worker]. by repeat split.
Qed.

Lemma complete_all_same_worker hs d s : same_worker s (complete_all hs d s).2.
Proof.
  revert d s. induction hs as [|h hs IH]; intros d s; [apply same_worker_refl|].
  simpl. pose proof (complete_same_worker h d s) as H1.
  destruct (complete h d s) as [d1 s1]. eapply same_worker_trans; [exact H1|apply IH].
Qed.

Lemma visit_same_worker h d s : same_worker s (visit h d s).2.
Proof.
  unfold visit. pose proof (handle_close_same_worker h true s) as Hc.
  destruct (handle_close h true s) as [s1 kept].
  by destruct (heap s !! h) as [[bd [o|] hook]|]; simpl; [repeat split|..].
Qed.

Lemma forEach_close_same_worker entries during d s :
  same_worker s (forEach_close entries during d s).2.
Proof.
  revert during d s. induction entries as [|[key h] rest IH]; intros during d s;
    [apply same_worker_refl|].
  cbn [forEach_close].
  assert (H1 : same_worker s
                 (if handles_has key (handles s) then visit h d s else (d, s)).2).
  { destruct (handles_has key (handles s)); [apply visit_same_worker|apply same_worker_refl]. }
  destruct (if handles_has key (handles s) then visit h d s else (d, s)) as [d1 s1].
  pose proof (complete_all_same_worker (hd [] during) d1 s1) as H2.
  destruct (complete_all (hd [] during) d1 s1) as [d2 s2].
  eapply same_worker_trans; [exact H1|]. eapply same_worker_trans; [exact H2|apply IH].
Qed.

(** What [_disconnect] does to the worker object, however it is
    entered: it sets [exitedAfterDisconnect], and leaves [state] alone. *)
Lemma _disconnect_worker pi during later s :
  state (complete_all later (_disconnect pi during s).1 (_disconnect pi during s).2).2 = state s
  ∧ exitedAfterDisconnect
      (complete_all later (_disconnect pi during s).1 (_disconnect pi during s).2).2 = true
  ∧ connected (complete_all later (_disconnect pi during s).1 (_disconnect pi during s).2).2
    = connected s
  ∧ handles (complete_all later (_disconnect pi during s).1 (_disconnect pi during s).2).2 = [].
Proof.
  pose proof (_disconnect_handles pi during s) as Hhs.
  assert (Hw : same_worker (with_exitedAfterDisconnect true s) (_disconnect pi during s).2).
  { unfold _disconnect.
    pose proof (forEach_close_same_worker (handles (with_exitedAfterDisconnect true s)) during
                  (mkDrain pi 1 []) (with_exitedAfterDisconnect true s)) as H1.
    destruct (forEach_close _ during _ _) as [d1 s1].
    eapply same_worker_trans; [exact H1|].
    eapply same_worker_trans; [|apply checkWaitingCount_same_worker]. by repeat split. }
  destruct (_disconnect pi during s) as [d0 s0]. cbn [fst snd] in *.
  pose proof (complete_all_same_worker later d0 s0) as Hw'.
  pose proof (complete_all_frame later d0 s0) as (_ & Hhs' & _).
  destruct (complete_all later d0 s0) as [d1 s1]. cbn [fst snd] in *.
  destruct (same_worker_trans _ _ _ Hw Hw') as (Hst & Hex & Hco). simpl in *.
  repeat split; congruence.
Qed.

End WorkerFields.

(** X3. A worker-initiated [disconnect()] that enters the drain leaves
    the worker 'disconnecting' with [exitedAfterDisconnect] set and the
    registry empty, whatever was registered and whichever closes have
    completed; from then on another [disconnect()] does nothing at all,
    and a newconn message for any key is acknowledged as not accepted
    and handed to nobody. *)
Theorem disconnect_enters_once (during during' : list (list HandleId))
    (later later' : list HandleId) (key : Key) (seq : Z) (connection : HandleId) (s : State) :
  state s ≠ "disconnecting" →
  state s ≠ "destroying" →
  ∃ d s',
    settle later (Worker_disconnect during s) = (Some d, s')
    ∧ state s' = "disconnecting"
    ∧ exitedAfterDisconnect s' = true
    ∧ handles s' = []
    ∧ settle later' (Worker_disconnect during' s') = (None, s')
    ∧ onconnection key seq connection s' = Returned (send (MsgAck seq false) None s').
Proof.
  intros H1 H2. rewrite (Worker_disconnect_enters during s H1 H2). cbn [settle].
  destruct (_disconnect_worker false during later (with_state "disconnecting" s))
    as (Hst & Hex & _ & Hhs).
  destruct (complete_all later _ _) as [d s']. cbn [fst snd] in *.
  exists d, s'. split; [done|]. split; [done|]. split; [done|]. split; [done|]. split.
  - unfold Worker_disconnect. by rewrite Hst.
  - unfold onconnection. by rewrite Hhs.
Qed.

Lemma disconnect_enters_once_witness :
  ∃ d s',
    settle [0] (Worker_disconnect [[]; [7]] two_listeners) = (Some d, s')
    ∧ state s' = "disconnecting"
    ∧ exitedAfterDisconnect s' = true
    ∧ handles s' = []
    ∧ settle [7] (Worker_disconnect [[0]] s') = (None, s')
    ∧ onconnection "k1" 3 9 s' = Returned (send (MsgAck 3 false) None s').
Proof.
  apply (disconnect_enters_once [[]; [7]] [[0]] [0] [7] "k1" 3 9 two_listeners).
  - vm_compute. discriminate.
  - vm_compute. discriminate.
Defined.

(** X4. However a drain is entered (by [disconnect()] or by the
    primary's message), whatever the registry holds (faux handles with
    no owner included) and whichever closes complete, in any order: the
    counter never drops below the number of outstanding closes, the
    event that ends the drain (the exitedAfterDisconnect send, or the
    direct transport disconnect) happens at most once and nothing of the
    drain follows it, and the registry is empty as soon as the call
    returns. *)
Theorem drain_ends_at_most_once (primaryInitiated : bool) (during : list (list HandleId))
    (later : list HandleId) (s : State) :
  ∃ d s' evs,
    complete_all later (_disconnect primaryInitiated during s).1
      (_disconnect primaryInitiated during s).2 = (d, s')
    ∧ trace s' = trace s ++ evs
    ∧ handles (_disconnect primaryInitiated during s).2 = []
    ∧ handles s' = []
    ∧ (Z.of_nat (length (pending d)) ≤ waitingCount d)%Z
    ∧ (no_final evs
       ∨ ∃ evs0, evs = evs0 ++ [final_of primaryInitiated] ∧ no_final evs0).
Proof.
  pose proof (_disconnect_inv primaryInitiated during s) as Hinv.
  pose proof (_disconnect_handles primaryInitiated during s) as Hhs.
  destruct (_disconnect primaryInitiated during s) as [d0 s0]. cbn [fst snd] in *.
  apply (complete_all_inv primaryInitiated (trace s) 0 later) in Hinv; [|done].
  pose proof (complete_all_frame later d0 s0) as (_ & Hhs' & _).
  destruct (complete_all later d0 s0) as [d s']. cbn [fst snd] in *.
  destruct Hinv as (_ & evs & Ht & Hle & Hpos & Hzero). simpl in *.
  exists d, s', evs. split; [done|]. split; [done|]. split; [done|].
  split; [congruence|]. split; [lia|].
  assert (Hcases : (0 < waitingCount d)%Z ∨ waitingCount d = 0%Z) by lia.
  destruct Hcases as [Hp|Hz]; [left; by apply Hpos|right; by apply Hzero].
Qed.

(** X5. [destroy()] on a worker that is not yet 'destroying' and whose
    channel is connected marks it 'destroying' with
    [exitedAfterDisconnect] set, sends exitedAfterDisconnect with the
    transport disconnect as its continuation and arms the exit on the
    'disconnect' event, and that is all: no handle is closed and the
    registry and the allocator are as before. After it a second
    [destroy()] and any [disconnect()] do nothing. *)
Theorem destroy_connected_once (during : list (list HandleId)) (later : list HandleId)
    (s : State) :
  state s ≠ "destroying" →
  connected s = true →
  trace (Worker_destroy s)
  = trace s ++ [EvSend MsgExitedAfterDisconnect (Some CbProcessDisconnect);
                EvOnceDisconnectExit]
  ∧ state (Worker_destroy s) = "destroying"
  ∧ exitedAfterDisconnect (Worker_destroy s) = true
  ∧ handles (Worker_destroy s) = handles s
  ∧ heap (Worker_destroy s) = heap s
  ∧ indexes (Worker_destroy s) = indexes s
  ∧ Worker_destroy (Worker_destroy s) = Worker_destroy s
  ∧ settle later (Worker_disconnect during (Worker_destroy s)) = (None, Worker_destroy s).
Proof.
  intros Hstate Hconn.
  assert (E : Worker_destroy s
              = emit EvOnceDisconnectExit
                  (send MsgExitedAfterDisconnect (Some CbProcessDisconnect)
                     (with_state "destroying" (with_exitedAfterDisconnect true s)))).
  { unfold Worker_destroy, isConnected.
    destruct (String.eqb_spec (state s) "destroying") as [Heq|_]; [done|].
    simpl. by rewrite Hconn. }
  rewrite E. simpl. rewrite <- app_assoc. repeat split.
Qed.

Lemma destroy_connected_once_witness :
  trace (Worker_destroy one_listener)
  = trace one_listener ++ [EvSend MsgExitedAfterDisconnect (Some CbProcessDisconnect);
                           EvOnceDisconnectExit]
  ∧ handles (Worker_destroy one_listener) = handles one_listener
  ∧ settle [0] (Worker_disconnect [[0]] (Worker_destroy one_listener))
    = (None, Worker_destroy one_listener).
Proof.
  destruct (destroy_connected_once [[0]] [0] one_listener)
    as (T & _ & _ & Hh & _ & _ & _ & Hd).
  - vm_compute. discriminate.
  - reflexivity.
  - split; [exact T|]. split; [exact Hh|exact Hd].
Defined.

(** X6. The listener [_setupWorker] leaves on the process 'disconnect'
    event re-emits the event on the worker and exits the process with
    code 0 exactly when [exitedAfterDisconnect] is not set. Every
    orderly sequence sets it first (a drain entered either way, at any
    point of its completion, and a [destroy()] that gets past its
    guard), so after any of them this listener does not exit. *)
Theorem unexpected_disconnect_exits (primaryInitiated : bool) (during : list (list HandleId))
    (later : list HandleId) (s : State) :
  trace (on_process_disconnect s)
  = trace s ++ EvWorkerEmit "disconnect"
               :: (if exitedAfterDisconnect s then [] else [EvProcessExit 0])
  ∧ trace (on_process_disconnect
             (complete_all later (_disconnect primaryInitiated during s).1
                (_disconnect primaryInitiated during s).2).2)
    = trace (complete_all later (_disconnect primaryInitiated during s).1
               (_disconnect primaryInitiated during s).2).2
      ++ [EvWorkerEmit "disconnect"]
  ∧ (state s = "destroying" ∨
     trace (on_process_disconnect (Worker_destroy s))
     = trace (Worker_destroy s) ++ [EvWorkerEmit "disconnect"]).
Proof.
  assert (Hgen : ∀ s0, trace (on_process_disconnect s0)
            = trace s0 ++ EvWorkerEmit "disconnect"
                          :: (if exitedAfterDisconnect s0 then [] else [EvProcessExit 0])).
  { intros s0. unfold on_process_disconnect. simpl.
    destruct (exitedAfterDisconnect s0); simpl; [done|by rewrite <- app_assoc]. }
  split; [apply Hgen|]. split.
  - rewrite Hgen.
    by destruct (_disconnect_worker primaryInitiated during later s) as (_ & -> & _).
  - destruct (String.eqb_spec (state s) "destroying") as [Heq|Hne]; [by left|right].
    rewrite Hgen. unfold Worker_destroy, isConnected.
    rewrite (proj2 (String.eqb_neq _ _) Hne). simpl.
    by destruct (connected s).
Qed.

(** ** Registration and routing *)

Lemma handles_get_set_new key h (m : list (Key * HandleId)) :
  handles_has key m = false → handles_get key (handles_set key h m) = Some h.
Proof.
  intros Hhas. rewrite (handles_set_new _ _ _ Hhas).
  pose proof (handles_has_false_notin _ _ Hhas) as Hnotin. clear Hhas.
  unfold handles_get. induction m as [|[k0 h0] m IH]; simpl.
  - by rewrite bool_decide_eq_true_2.
  - rewrite fmap_cons in Hnotin. apply not_elem_of_cons in Hnotin as [Hne Hnotin].
    simpl in Hne. rewrite bool_decide_eq_false_2 by done. by apply IH.
Qed.

Lemma handles_get_set_other key key' h (m : list (Key * HandleId)) :
  key' ≠ key → handles_get key' (handles_set key h m) = handles_get key' m.
Proof.
  intros Hne. unfold handles_get. induction m as [|[k0 h0] m IH]; simpl.
  - by rewrite bool_decide_eq_false_2.
  - case_decide as Hk; simpl in *.
    + subst k0. by rewrite !(bool_decide_eq_false_2 (key = key')).
    + destruct (bool_decide (k0 = key')); [done|exact IH].
Qed.

(** X7. A successful round-robin reply (errno 0) for a key that is not
    registered creates one new faux handle, open, with no owner,
    registers it under the key without disturbing any other key, and
    calls the listener's callback with [(0, handle)]. From then on a
    newconn for the key is acknowledged as accepted: it is handed to the
    handle once the listener has installed its accept hook, and throws
    (after the acknowledgement) while there is none. Once the handle is
    closed a newconn for the key is acknowledged as not accepted. *)
Theorem rr_registers_and_routes (message : Reply) (indexesKey : string) (index : nat)
    (o : OwnerId) (seq : Z) (connection : HandleId) (s : State) :
  reply_errno message = 0%Z →
  handles_has (reply_key message) (handles s) = false →
  let h := fresh (dom (heap s)) in
  let s1 := final (rr message indexesKey index s) in
  rr message indexesKey index s = Returned s1
  ∧ trace s1 = trace s ++ [EvCallback 0 (Some h)]
  ∧ heap s !! h = None
  ∧ heap s1 !! h
    = Some (mkHandle (Faux (Some (reply_key message)) indexesKey index
                        (reply_sockname message)) None false)
  ∧ handles_get (reply_key message) (handles s1) = Some h
  ∧ (∀ key', key' ≠ reply_key message →
       handles_get key' (handles s1) = handles_get key' (handles s))
  ∧ indexes s1 = indexes s
  ∧ onconnection (reply_key message) seq connection s1
    = Thrown TypeError (send (MsgAck seq true) None s1)
  ∧ onconnection (reply_key message) seq connection (listener_attach h o s1)
    = Returned (emit (EvDeliver h connection)
                  (send (MsgAck seq true) None (listener_attach h o s1)))
  ∧ onconnection (reply_key message) seq connection
      (handle_close h false (listener_attach h o s1)).1
    = Returned (send (MsgAck seq false) None
                  (handle_close h false (listener_attach h o s1)).1).
Proof.
  intros Herr Hhas. cbv zeta.
  set (h := fresh (dom (heap s))).
  set (obj := mkHandle (Faux (Some (reply_key message)) indexesKey index
                          (reply_sockname message)) None false).
  assert (E : rr message indexesKey index s
              = Returned (emit (EvCallback 0 (Some h))
                            (with_handles (handles_set (reply_key message) h (handles s))
                               (with_heap (<[h := obj]> (heap s)) s)))).
  { unfold rr. rewrite decide_False by (by intros []).
    cbn [handles with_heap]. by rewrite Hhas. }
  rewrite E. cbn [final].
  assert (Hget : handles_get (reply_key message)
                   (handles_set (reply_key message) h (handles s)) = Some h)
    by (by apply handles_get_set_new).
  split; [done|]. split; [done|]. split; [apply fresh_heap_lookup|].
  split; [apply lookup_insert_eq|]. split; [exact Hget|].
  split; [intros key' Hne; by apply handles_get_set_other|]. split; [done|].
  split; [|split].
  - unfold onconnection. simpl. rewrite Hget. simpl. by rewrite lookup_insert_eq.
  - unfold onconnection, listener_attach. simpl. rewrite Hget. simpl.
    rewrite lookup_alter, decide_True by done. by rewrite lookup_insert_eq.
  - unfold handle_close, faux_close, listener_attach. simpl.
    rewrite lookup_alter, decide_True by done. rewrite lookup_insert_eq. simpl.
    unfold onconnection. simpl. by rewrite handles_get_delete_eq.
Qed.

Lemma rr_registers_and_routes_witness :
  handles_get "k1" (handles one_listener) = Some 0
  ∧ onconnection "k1" 4 9 (listener_attach 0 100 one_listener)
    = Returned (emit (EvDeliver 0 9)
                  (send (MsgAck 4 true) None (listener_attach 0 100 one_listener)))
  ∧ onconnection "k1" 4 9 (handle_close 0 false (listener_attach 0 100 one_listener)).1
    = Returned (send (MsgAck 4 false) None
                  (handle_close 0 false (listener_attach 0 100 one_listener)).1).
Proof.
  destruct (rr_registers_and_routes (reply_ok "k1") key8000 0 100 4 9
              (_getServer linux server0 tcp8000 initial))
    as (_ & _ & _ & _ & G & _ & _ & _ & D & C).
  - reflexivity.
  - vm_compute. reflexivity.
  - split; [exact G|]. split; [exact D|exact C].
Defined.

(** X8. [shared] does not look at the reply's errno: for a key that is
    not registered it wraps the close of the handle that came with the
    reply, registers the handle under the key and calls the listener's
    callback with the reply's errno, zero or not, and that handle. The
    wrapped close is not guarded: each call sends
    [{ act: 'close', key }], deletes the key, releases the index and
    calls the native close with the caller's arguments, so two calls
    send two close messages and close the native handle twice. *)
Theorem shared_registers_and_wraps_close (message : Reply) (h : HandleId)
    (indexesKey : string) (index : nat) (with_callback : bool) (s : State) :
  heap s !! h = None →
  handles_has (reply_key message) (handles s) = false →
  let s1 := final (shared message h indexesKey index s) in
  let s2 := (handle_close h with_callback s1).1 in
  let s3 := (handle_close h with_callback s2).1 in
  shared message h indexesKey index s = Returned s1
  ∧ trace s1 = trace s ++ [EvCallback (reply_errno message) (Some h)]
  ∧ handles_get (reply_key message) (handles s1) = Some h
  ∧ (∀ key', key' ≠ reply_key message →
       handles_get key' (handles s1) = handles_get key' (handles s))
  ∧ indexes s1 = indexes s
  ∧ trace s2 = trace s1 ++ [EvSend (MsgClose (reply_key message)) None;
                            EvNativeClose h with_callback]
  ∧ handles_get (reply_key message) (handles s2) = None
  ∧ indexes s2 = removeIndexesKey indexesKey index (indexes s)
  ∧ trace s3 = trace s2 ++ [EvSend (MsgClose (reply_key message)) None;
                            EvNativeClose h with_callback].
Proof.
  intros Hnew Hhas. cbv zeta.
  set (obj := mkHandle (Real (SharedClose (reply_key message) indexesKey index NativeClose))
                None false).
  assert (E : shared message h indexesKey index s
              = Returned (emit (EvCallback (reply_errno message) (Some h))
                            (with_handles (handles_set (reply_key message) h (handles s))
                               (with_heap (<[h := obj]> (heap s)) s)))).
  { unfold shared. rewrite Hnew. cbn [close_binding handles with_heap]. by rewrite Hhas. }
  rewrite E. cbn [final].
  assert (Hget : handles_get (reply_key message)
                   (handles_set (reply_key message) h (handles s)) = Some h)
    by (by apply handles_get_set_new).
  split; [done|]. split; [done|]. split; [exact Hget|].
  split; [intros key' Hne; by apply handles_get_set_other|]. split; [done|].
  unfold handle_close. simpl. rewrite !lookup_insert_eq. simpl.
  rewrite !lookup_insert_eq. simpl.
  rewrite <- !app_assoc. simpl.
  repeat split. apply handles_get_delete_eq.
Qed.

Lemma shared_registers_and_wraps_close_witness :
  trace (final (shared (reply_failed "k2") 7 key8000 0
                  (_getServer linux server0 tcp8000 initial)))
  = trace (_getServer linux server0 tcp8000 initial) ++ [EvCallback (-98) (Some 7)]
  ∧ handles_get "k2"
      (handles (final (shared (reply_failed "k2") 7 key8000 0
                         (_getServer linux server0 tcp8000 initial)))) = Some 7.
Proof.
  destruct (shared_registers_and_wraps_close (reply_failed "k2") 7 key8000 0 true
              (_getServer linux server0 tcp8000 initial))
    as (_ & T & G & _).
  - vm_compute. reflexivity.
  - vm_compute. reflexivity.
  - split; [exact T|exact G].
Defined.

Lemma run_close_get (c : CloseFn) h (b : bool) s key' :
  (∀ k, k ∈ captured_keys c → k ≠ key') →
  handles_get key' (handles (run_close c h b s)) = handles_get key' (handles s).
Proof.
  revert s. induction c as [|key k i orig IH]; intros s Hk; simpl; [done|].
  rewrite IH by (intros k0 H0; apply Hk; by right). simpl.
  apply handles_get_delete_ne. apply Hk. by left.
Qed.

(** X9. In a well-formed registry, closing a registered handle (a faux
    handle or a shared one, with or without a callback) never
    unregisters another handle: every other key is bound to the handle
    it had, and the registry is still well formed. *)
Theorem close_keeps_other_registrations (key : Key) (h : HandleId) (with_callback : bool)
    (s : State) :
  registry_ok s = true →
  (key, h) ∈ handles s →
  (∀ key', key' ≠ key →
     handles_get key' (handles (handle_close h with_callback s).1)
     = handles_get key' (handles s))
  ∧ registry_ok (handle_close h with_callback s).1 = true.
Proof.
  intros Hok Hin. split; [|by apply registry_ok_handle_close].
  intros key' Hne.
  apply registry_ok_spec in Hok as [_ Hall]. specialize (Hall _ Hin).
  unfold entry_ok in Hall. simpl in Hall.
  unfold handle_close, faux_close.
  destruct (heap s !! h) as [[[c|[key0|] k i sn] o hook]|]; simpl; try done.
  - apply run_close_get. intros k0 Hk0 ->.
    pose proof (forallb_elem _ _ _ Hall Hk0) as E. apply String.eqb_eq in E. congruence.
  - apply String.eqb_eq in Hall. subst key0. by apply handles_get_delete_ne.
Qed.

Lemma close_keeps_other_registrations_witness :
  (∀ key', key' ≠ "k1" →
     handles_get key' (handles (handle_close 0 true two_listeners).1)
     = handles_get key' (handles two_listeners))
  ∧ registry_ok (handle_close 0 true two_listeners).1 = true.
Proof.
  apply (close_keeps_other_registrations "k1" 0 true two_listeners).
  - vm_compute. reflexivity.
  - apply (bool_decide_unpack _). vm_compute. exact I.
Defined.

(** X10. Every state a worker reaches from start-up by registering
    listeners, receiving replies (each shared reply bringing a new
    handle object) and closing handles, in any order and whether or not
    a registration fails its assertion, has a well-formed registry: no
    key is bound twice, and every registered handle exists and was
    registered under the key its own close unregisters. *)
Theorem registry_well_formed_over_runs (env : Env) (ops : list WorkerOp) :
  new_handles env ops initial →
  registry_ok (run_ops env ops initial) = true
  ∧ NoDup (handles (run_ops env ops initial)).*1
  ∧ ∀ key h, (key, h) ∈ handles (run_ops env ops initial) →
      is_Some (heap (run_ops env ops initial) !! h)
      ∧ ∀ k, k ∈ deleted_by (heap (run_ops env ops initial)) h → k = key.
Proof.
  intros Hnew.
  assert (Hok : registry_ok (run_ops env ops initial) = true).
  { revert Hnew. generalize registry_ok_initial. generalize initial.
    induction ops as [|op rest IH]; intros s Hok Hnew; [done|].
    destruct Hnew as [Hop Hrest]. unfold run_ops. simpl. apply IH; [|done].
    by apply registry_ok_worker_step. }
  split; [exact Hok|]. pose proof Hok as Hspec.
  apply registry_ok_spec in Hspec as [Hnd Hall]. split; [exact Hnd|].
  intros key h Hin. split.
  - apply (entry_ok_points _ (key, h)). by apply Hall.
  - by apply registry_ok_deleted.
Qed.

Lemma registry_well_formed_over_runs_witness :
  registry_ok (run_ops linux after_failure initial) = true
  ∧ NoDup (handles (run_ops linux after_failure initial)).*1
  ∧ ∀ key h, (key, h) ∈ handles (run_ops linux after_failure initial) →
      is_Some (heap (run_ops linux after_failure initial) !! h)
      ∧ ∀ k, k ∈ deleted_by (heap (run_ops linux after_failure initial)) h → k = key.
Proof.
  apply (registry_well_formed_over_runs linux after_failure).
  vm_compute. repeat split.
Defined.

(** X11. The 'listening' listener of a registration sets the worker's
    state to 'listening' whatever it was and sends one listening
    message carrying the index, data and address of the query that
    registration sent, with the port the listener is bound to, or the
    requested port when that one is missing or 0; it touches nothing
    else. Since it overwrites 'disconnecting' and 'destroying' too, a
    [disconnect()] called after it always enters the drain. *)
Theorem listening_announces_and_resets_state (env : Env) (obj : ServerObj)
    (options : ServerOptions) (s0 : State) (bound_port : option Z)
    (during : list (list HandleId)) (s : State) :
  ∃ index data address announced,
    last (trace (_getServer env obj options s0))
    = Some (EvSend (MsgQueryServer index data address options)
              (Some (CbQueryReply obj (indexesKey_of env options) index)))
    ∧ trace (listening_listener env obj options s0 bound_port s)
      = trace s ++ [EvSend (MsgListening index data address announced options) None]
    ∧ announced = match bound_port with
                  | Some p => if decide (p = 0%Z) then port options else p
                  | None => port options
                  end
    ∧ state (listening_listener env obj options s0 bound_port s) = "listening"
    ∧ handles (listening_listener env obj options s0 bound_port s) = handles s
    ∧ heap (listening_listener env obj options s0 bound_port s) = heap s
    ∧ indexes (listening_listener env obj options s0 bound_port s) = indexes s
    ∧ exitedAfterDisconnect (listening_listener env obj options s0 bound_port s)
      = exitedAfterDisconnect s
    ∧ is_Some (Worker_disconnect during
                 (listening_listener env obj options s0 bound_port s)).1.
Proof.
  eexists _, _, _, _. split.
  { rewrite _getServer_trace. apply last_snoc. }
  split; [reflexivity|]. repeat split.
  unfold Worker_disconnect. cbn [state listening_listener on_listening send emit with_state].
  cbn [String.eqb Ascii.eqb Bool.eqb negb andb].
  destruct (_disconnect false during _). by eexists.
Qed.

(** X12. What a reply to a query leads to, in full. [_setServerData]
    gets the reply's data first whenever it is a function, error reply
    or not. Then: a reply with no handle and a nonzero errno calls the
    listener back with [(errno, null)] and registers nothing; otherwise,
    if the reply's key is already registered the assertion fails and
    the listener is not called back; otherwise exactly one handle is
    registered under the key and the listener is called back once, with
    that handle. *)
Theorem reply_calls_back_once (obj : ServerObj) (indexesKey : string) (index : nat)
    (reply : Reply) (handle : option HandleId) (s : State) :
  let pre := if _setServerData obj then [EvSetServerData (reply_data reply)] else [] in
  let out := on_query_reply obj indexesKey index reply handle s in
  if bool_decide (handle = None) && negb (bool_decide (reply_errno reply = 0%Z))
  then out = Returned (final out)
       ∧ trace (final out) = trace s ++ pre ++ [EvCallback (reply_errno reply) None]
       ∧ handles (final out) = handles s ∧ heap (final out) = heap s
  else if handles_has (reply_key reply) (handles s)
  then out = Thrown ERR_INTERNAL_ASSERTION (final out)
       ∧ trace (final out) = trace s ++ pre
       ∧ handles (final out) = handles s
  else ∃ h errno,
       out = Returned (final out)
       ∧ trace (final out) = trace s ++ pre ++ [EvCallback errno (Some h)]
       ∧ handles_get (reply_key reply) (handles (final out)) = Some h
       ∧ h = match handle with Some h' => h' | None => fresh (dom (heap s)) end
       ∧ errno = reply_errno reply.
Proof.
  cbv zeta. unfold on_query_reply.
  set (s1 := if _setServerData obj then emit (EvSetServerData (reply_data reply)) s else s).
  assert (Ht : trace s1 = trace s
                 ++ (if _setServerData obj then [EvSetServerData (reply_data reply)] else [])).
  { unfold s1. destruct (_setServerData obj); simpl; [done|by rewrite app_nil_r]. }
  assert (Hh : handles s1 = handles s) by (unfold s1; by destruct (_setServerData obj)).
  assert (Hp : heap s1 = heap s) by (unfold s1; by destruct (_setServerData obj)).
  clearbody s1.
  destruct handle as [h|]; simpl.
  - unfold shared. cbn [handles with_heap]. rewrite Hh.
    destruct (handles_has (reply_key reply) (handles s)) eqn:Hhas; simpl.
    + by rewrite Ht.
    + exists h, (reply_errno reply). rewrite Ht, <- app_assoc.
      repeat split. by apply handles_get_set_new.
  - unfold rr. case_decide as Herr.
    + rewrite bool_decide_eq_false_2 by done. simpl.
      rewrite Ht, <- app_assoc. by repeat split.
    + assert (E0 : reply_errno reply = 0%Z) by (destruct (decide (reply_errno reply = 0%Z)); tauto).
      rewrite (bool_decide_eq_true_2 _ E0). simpl.
      cbn [handles with_heap]. rewrite Hh, Hp.
      destruct (handles_has (reply_key reply) (handles s)) eqn:Hhas; simpl.
      * by rewrite Ht.
      * exists (fresh (dom (heap s))), 0%Z. rewrite Ht, <- app_assoc.
        repeat split; [by apply handles_get_set_new|done].
Qed.

(** ** Tuples do not interfere *)

Section Independence.

Variable env : Env.
Variable indexesKey : string.

Lemma removeIndexesKey_agree k i (ix1 ix2 : Indexes) :
  ix1 !! indexesKey = ix2 !! indexesKey →
  removeIndexesKey k i ix1 !! indexesKey = removeIndexesKey k i ix2 !! indexesKey.
Proof.
  intros Heq. destruct (decide (k = indexesKey)) as [->|Hne].
  - unfold removeIndexesKey. rewrite <- Heq.
    destruct (ix1 !! indexesKey) as [e|] eqn:Hk; [|by rewrite Hk].
    case_decide; [by rewrite !lookup_delete_eq|by rewrite !lookup_insert_eq].
  - by rewrite !removeIndexesKey_other.
Qed.

Lemma allocateIndex_agree k (ix1 ix2 : Indexes) :
  ix1 !! indexesKey = ix2 !! indexesKey →
  (allocateIndex k ix1).2 !! indexesKey = (allocateIndex k ix2).2 !! indexesKey
  ∧ (k = indexesKey → (allocateIndex k ix1).1 = (allocateIndex k ix2).1).
Proof.
  intros Heq. destruct (decide (k = indexesKey)) as [->|Hne].
  - unfold allocateIndex. simpl. rewrite !lookup_insert_eq, <- Heq. by split.
  - rewrite !allocateIndex_other by done. by split.
Qed.

Lemma run_close_agree (c : CloseFn) h (b : bool) s1 s2 :
  agree_on indexesKey s1 s2 → agree_on indexesKey (run_close c h b s1) (run_close c h b s2).
Proof.
  revert s1 s2. induction c as [|key k i orig IH]; intros s1 s2 (Hh & Hp & Hi); simpl.
  - by repeat split.
  - apply IH. repeat split; simpl; [by rewrite Hh|done|by apply removeIndexesKey_agree].
Qed.

Lemma handle_close_agree h (b : bool) s1 s2 :
  agree_on indexesKey s1 s2 →
  agree_on indexesKey (handle_close h b s1).1 (handle_close h b s2).1.
Proof.
  intros Hag. pose proof Hag as (Hh & Hp & Hi). unfold handle_close, faux_close. rewrite <- Hp.
  destruct (heap s1 !! h) as [[[c|[key|] k i sn] o hook]|]; simpl; try done.
  - by apply run_close_agree.
  - repeat split; simpl; [by rewrite Hh|by rewrite Hp|by apply removeIndexesKey_agree].
Qed.

Lemma on_query_reply_agree obj k i r h s1 s2 :
  agree_on indexesKey s1 s2 →
  agree_on indexesKey (final (on_query_reply obj k i r h s1))
    (final (on_query_reply obj k i r h s2)).
Proof.
  intros (Hh & Hp & Hi). unfold on_query_reply.
  set (t1 := if _setServerData obj then emit (EvSetServerData (reply_data r)) s1 else s1).
  set (t2 := if _setServerData obj then emit (EvSetServerData (reply_data r)) s2 else s2).
  assert (Hag : agree_on indexesKey t1 t2).
  { unfold t1, t2. destruct (_setServerData obj); by repeat split. }
  clearbody t1 t2. clear Hh Hp Hi. destruct Hag as (Hh & Hp & Hi).
  destruct h as [h|].
  - unfold shared. cbn [handles with_heap]. rewrite <- Hh, <- Hp.
    destruct (handles_has (reply_key r) (handles t1)); repeat split; simpl;
      congruence.
  - unfold rr. case_decide; [by repeat split|].
    cbn [handles with_heap]. rewrite <- Hh, <- Hp.
    destruct (handles_has (reply_key r) (handles t1)); repeat split; simpl;
      congruence.
Qed.

Lemma worker_step_agree op s1 s2 :
  agree_on indexesKey s1 s2 →
  agree_on indexesKey (worker_step env op s1) (worker_step env op s2).
Proof.
  intros Hag. destruct op as [obj options|obj k i r h|h b]; cbn [worker_step].
  - destruct Hag as (Hh & Hp & Hi). unfold agree_on. rewrite !_getServer_indexes.
    split; [|split].
    + unfold _getServer. by do 2 destruct (allocateIndex _ _).
    + unfold _getServer. by do 2 destruct (allocateIndex _ _).
    + by apply allocateIndex_agree.
  - by apply on_query_reply_agree.
  - by apply handle_close_agree.
Qed.

Lemma queried_agree ops : ∀ s1 s2,
  agree_on indexesKey s1 s2 →
  queried env indexesKey (without_other_queries env indexesKey ops) s1
  = queried env indexesKey ops s2.
Proof.
  induction ops as [|op rest IH]; intros s1 s2 Hag; [done|].
  unfold without_other_queries. cbn [List.filter]. fold (without_other_queries env indexesKey rest).
  destruct op as [obj options|obj k i r h|h b].
  - destruct (decide (indexesKey_of env options = indexesKey)) as [Hk|Hk].
    + rewrite (bool_decide_eq_true_2 _ Hk). cbn [queried].
      rewrite !decide_True by done. f_equal.
      * unfold queried_index. f_equal. rewrite Hk.
        by apply allocateIndex_agree; [apply Hag|].
      * apply IH. by apply (worker_step_agree (OpGetServer obj options)).
    + rewrite (bool_decide_eq_false_2 _ Hk). cbn [queried].
      rewrite decide_False by done. simpl. apply IH.
      destruct Hag as (Hh & Hp & Hi). cbn [worker_step]. unfold agree_on.
      rewrite _getServer_indexes, allocateIndex_other by done.
      unfold _getServer. by destruct (allocateIndex _ (indexes s2)).
  - cbn [queried app]. apply IH.
    by apply (worker_step_agree (OpReply obj k i r h)).
  - cbn [queried app]. apply IH.
    by apply (worker_step_agree (OpClose h b)).
Qed.

End Independence.

(** X13. The bookkeeping of different endpoint tuples does not interfere
    through registrations: the indices a run's [_getServer] calls
    obtain for a tuple are the same as in the run with every
    [_getServer] call on any other tuple left out, wherever those calls
    stood among replies and closes. *)
Theorem other_tuples_do_not_shift_indices (env : Env) (indexesKey : string)
    (ops : list WorkerOp) (s : State) :
  queried env indexesKey (without_other_queries env indexesKey ops) s
  = queried env indexesKey ops s.
Proof. apply queried_agree. by repeat split. Qed.

(** ** Registering and closing *)

Lemma handles_delete_set_new key h (m : list (Key * HandleId)) :
  handles_has key m = false → handles_delete key (handles_set key h m) = m.
Proof.
  intros Hhas. rewrite (handles_set_new _ _ _ Hhas).
  pose proof (handles_has_false_notin _ _ Hhas) as Hnotin. clear Hhas.
  unfold handles_delete. induction m as [|[k0 h0] m IH]; simpl.
  - rewrite filter_cons. simpl. by rewrite decide_False by (simpl; tauto).
  - rewrite fmap_cons in Hnotin. apply not_elem_of_cons in Hnotin as [Hne Hnotin].
    simpl in Hne. rewrite filter_cons. simpl.
    rewrite decide_True by (simpl; congruence). f_equal. by apply IH.
Qed.

(** X14. Registering a listener on a tuple that has no bookkeeping,
    getting a successful round-robin reply under a key that is not
    registered, and closing the handle, is a round trip for the module's
    maps: the registry and the allocator are exactly what they were
    before the registration (the tuple's entry is collected again), and
    all that happened outside is the query, the listener's callback and
    the close notification. *)
Theorem register_close_round_trip (env : Env) (obj : ServerObj) (options : ServerOptions)
    (reply : Reply) (s : State) :
  indexes s !! indexesKey_of env options = None →
  reply_errno reply = 0%Z →
  handles_has (reply_key reply) (handles s) = false →
  let s1 := _getServer env obj options s in
  let s2 := final (rr reply (indexesKey_of env options) (queried_index env options s) s1) in
  let s3 := (handle_close (fresh (dom (heap s))) false s2).1 in
  queried_index env options s = 0
  ∧ handles s3 = handles s
  ∧ indexes s3 = indexes s
  ∧ trace s3
    = trace s
      ++ [EvSend (MsgQueryServer 0 (default JNull (_getServerData obj))
                    (resolved_address env options) options)
            (Some (CbQueryReply obj (indexesKey_of env options) 0));
          EvCallback 0 (Some (fresh (dom (heap s))));
          EvSend (MsgClose (reply_key reply)) None].
Proof.
  intros Hnone Herr Hhas. cbv zeta.
  assert (Hq : queried_index env options s = 0).
  { unfold queried_index. rewrite allocateIndex_fst. unfold next_of. by rewrite Hnone. }
  rewrite Hq.
  assert (E1 : _getServer env obj options s
    = send (MsgQueryServer 0 (default JNull (_getServerData obj))
              (resolved_address env options) options)
        (Some (CbQueryReply obj (indexesKey_of env options) 0))
        (with_indexes (<[indexesKey_of env options := mkIndexSet 1 ({[0]} ∪ ∅)]> (indexes s)) s)).
  { unfold _getServer, allocateIndex. by rewrite Hnone. }
  rewrite E1.
  unfold rr. rewrite decide_False by (by intros []).
  cbn [handles heap with_heap send emit with_indexes]. rewrite Hhas. cbn [final].
  unfold handle_close, faux_close. simpl. rewrite lookup_insert_eq. simpl.
  split; [done|]. split; [by apply handles_delete_set_new|]. split.
  - unfold removeIndexesKey. rewrite lookup_insert_eq. simpl.
    assert (Hset : ({[0]} ∪ (∅ : gset nat)) ∖ {[0]} = ∅).
    { apply set_eq. intros j. rewrite elem_of_difference, elem_of_union, !elem_of_singleton.
      split; [intros [[->|Hj] Hne']; [done|by apply not_elem_of_empty in Hj]|].
      intros Hj. by apply not_elem_of_empty in Hj. }
    rewrite Hset. case_decide as Hz; [by apply delete_insert_id|].
    destruct Hz. reflexivity.
  - by rewrite <- !app_assoc.
Qed.

Lemma register_close_round_trip_witness :
  handles (handle_close 0 false one_listener).1 = handles initial
  ∧ indexes (handle_close 0 false one_listener).1 = indexes initial.
Proof.
  destruct (register_close_round_trip linux server0 tcp8000 (reply_ok "k1") initial)
    as (_ & H & I & _).
  - reflexivity.
  - reflexivity.
  - reflexivity.
  - split; [exact H|exact I].
Defined.

(** X15. A unix socket path is resolved before it is joined into the
    tuple's key: when the port is negative and the platform is not
    win32, two registrations whose string addresses resolve to the same
    absolute path share one bookkeeping entry, so the second obtains the
    index after the first's. On win32, or with a port that is not
    negative, the address goes into the key and the query as given. *)
Theorem pipe_addresses_are_resolved (env : Env) (obj : ServerObj) (a b : string)
    (port : Z) (addressType fd : JsVal) (s : State) :
  (port < 0)%Z →
  platform env ≠ "win32" →
  path_resolve env a = path_resolve env b →
  indexesKey_of env (mkOptions (JStr a) port addressType fd)
  = indexesKey_of env (mkOptions (JStr b) port addressType fd)
  ∧ resolved_address env (mkOptions (JStr a) port addressType fd) = JStr (path_resolve env a)
  ∧ queried_index env (mkOptions (JStr b) port addressType fd)
      (_getServer env obj (mkOptions (JStr a) port addressType fd) s)
    = S (queried_index env (mkOptions (JStr a) port addressType fd) s)
  ∧ resolved_address (mkEnv "win32" (path_resolve env))
      (mkOptions (JStr a) port addressType fd) = JStr a
  ∧ ∀ port', (0 ≤ port')%Z →
      resolved_address env (mkOptions (JStr a) port' addressType fd) = JStr a.
Proof.
  intros Hport Hplat Hres.
  assert (Hra : ∀ x, resolved_address env (mkOptions (JStr x) port addressType fd)
                     = JStr (path_resolve env x)).
  { intros x. unfold resolved_address. simpl.
    rewrite (proj2 (Z.ltb_lt _ _) Hport), (proj2 (String.eqb_neq _ _) Hplat). done. }
  assert (Hkey : indexesKey_of env (mkOptions (JStr a) port addressType fd)
                 = indexesKey_of env (mkOptions (JStr b) port addressType fd)).
  { unfold indexesKey_of. rewrite !Hra. simpl. by rewrite Hres. }
  split; [exact Hkey|]. split; [apply Hra|]. split; [|split].
  - unfold queried_index. rewrite _getServer_indexes, <- Hkey.
    rewrite (allocateIndex_fst _ (allocateIndex _ _).2). apply allocateIndex_next.
  - unfold resolved_address. simpl. by rewrite andb_false_r.
  - intros port' Hport'. unfold resolved_address. simpl.
    assert (Hnn : (port' <? 0)%Z = false) by (apply Z.ltb_ge; lia).
    by rewrite Hnn.
Qed.

Lemma pipe_addresses_are_resolved_witness :
  indexesKey_of (mkEnv "linux" (λ _, "/run/app.sock"))
    (mkOptions (JStr "app.sock") (-1) (JNum (-1)) JUndefined)
  = indexesKey_of (mkEnv "linux" (λ _, "/run/app.sock"))
      (mkOptions (JStr "./app.sock") (-1) (JNum (-1)) JUndefined).
Proof.
  apply (pipe_addresses_are_resolved (mkEnv "linux" (λ _, "/run/app.sock")) server0
           "app.sock" "./app.sock" (-1) (JNum (-1)) JUndefined initial).
  - reflexivity.
  - vm_compute. discriminate.
  - reflexivity.
Defined.

(** ** The sweep of a drain, handle by handle *)

Section Sweep.

Implicit Types (d : Drain) (s : State) (h : HandleId) (evs : list Event).
Implicit Types (hp : gmap HandleId HandleObj).

Lemma has_run_more run evs evs' : has_run run evs → has_run run (evs ++ evs').
Proof.
  intros (before & after & ->). exists before, (after ++ evs'). by rewrite <- !app_assoc.
Qed.

Lemma has_run_later run evs evs' : has_run run evs' → has_run run (evs ++ evs').
Proof.
  intros (before & after & ->). exists (evs ++ before), after. by rewrite <- !app_assoc.
Qed.

Lemma swept_more hp0 hp' evs evs' h :
  swept hp0 hp' evs h → swept hp0 hp' (evs ++ evs') h.
Proof.
  unfold swept. destruct (hp0 !! h) as [[[c|[k|] ki i sn] [o|] hook]|]; try done.
  - intros H. apply elem_of_app. by left.
  - apply has_run_more.
  - intros H. apply elem_of_app. by left.
  - intros [H1 H2]. split; [apply elem_of_app; by left|done].
  - intros H. apply elem_of_app. by left.
Qed.

Lemma swept_later hp0 hp' evs evs' h :
  swept hp0 hp' evs' h → swept hp0 hp' (evs ++ evs') h.
Proof.
  unfold swept. destruct (hp0 !! h) as [[[c|[k|] ki i sn] [o|] hook]|]; try done.
  - intros H. apply elem_of_app. by right.
  - apply has_run_later.
  - intros H. apply elem_of_app. by right.
  - intros [H1 H2]. split; [apply elem_of_app; by right|done].
  - intros H. apply elem_of_app. by right.
Qed.

(** A visit changes the objects at most at the handle visited, and only
    by closing an open faux handle that has no owner. *)
Lemma visit_heap h d s h' :
  heap (visit h d s).2 !! h' = heap s !! h'
  ∨ (h' = h ∧ ∃ k ki i sn hook,
       heap s !! h = Some (mkHandle (Faux (Some k) ki i sn) None hook)
       ∧ heap (visit h d s).2 !! h = Some (mkHandle (Faux None ki i sn) None hook)).
Proof.
  unfold visit, handle_close, faux_close.
  destruct (heap s !! h) as [[[c|[k|] ki i sn] [o|] hook]|] eqn:Hh; simpl; try (by left).
  - left. by rewrite run_close_heap.
  - destruct (decide (h' = h)) as [->|Hne].
    + right. split; [done|]. exists k, ki, i, sn, hook. split; [done|apply lookup_insert_eq].
    + left. by rewrite lookup_insert_ne.
Qed.

Lemma visit_sweeps hp0 h d s :
  heap s !! h = hp0 !! h →
  is_Some (hp0 !! h) →
  ∃ evs, trace (visit h d s).2 = trace s ++ evs ∧ swept hp0 (heap (visit h d s).2) evs h.
Proof.
  intros Heq [obj Hobj]. unfold swept. rewrite Hobj. rewrite Hobj in Heq.
  unfold visit, handle_close, faux_close. rewrite Heq.
  destruct obj as [[c|[k|] ki i sn] [o|] hook]; simpl.
  - eexists. split; [done|]. by left.
  - rewrite run_close_trace. eexists. split; [done|].
    exists [], []. by rewrite app_nil_r.
  - eexists. split; [done|]. by left.
  - eexists. split; [done|]. split; [by left|apply lookup_insert_eq].
  - eexists. split; [done|]. by left.
  - exists []. by rewrite app_nil_r.
Qed.

Lemma complete_all_trace hs d s : ∃ evs, trace (complete_all hs d s).2 = trace s ++ evs.
Proof.
  revert d s. induction hs as [|h hs IH]; intros d s.
  { exists []. simpl. by rewrite app_nil_r. }
  simpl. assert (H1 : ∃ evs, trace (complete h d s).2 = trace s ++ evs).
  { unfold complete. case_decide; [|exists []; by rewrite app_nil_r].
    destruct (checkWaitingCount_frame
                (mkDrain (primaryInitiated d) (waitingCount d) (remove_one h (pending d)))
                (emit (EvCloseDone h) s)) as (_ & _ & _ & _ & _ & evs & ->).
    simpl. rewrite <- app_assoc. by eexists. }
  destruct H1 as (evs1 & H1). destruct (complete h d s) as [d1 s1]. simpl in H1.
  destruct (IH d1 s1) as (evs2 & H2). rewrite H2, H1, <- app_assoc. by eexists.
Qed.

Lemma entry_ok_deleted hp key h :
  entry_ok hp (key, h) = true → ∀ k, k ∈ deleted_by hp h → k = key.
Proof.
  unfold entry_ok, deleted_by. simpl.
  destruct (hp !! h) as [[[c|[key0|] ik i sn] [o|] hook]|]; intros He k Hk;
    try (by apply elem_of_nil in Hk).
  - pose proof (forallb_elem _ _ _ He Hk) as E. symmetry. by apply String.eqb_eq.
  - apply list_elem_of_singleton in Hk as ->. symmetry. by apply String.eqb_eq.
Qed.

Lemma forEach_close_sweeps hp0 t0 entries : ∀ during visited d s evs,
  NoDup entries.*1 →
  trace s = t0 ++ evs →
  (∀ h, h ∈ visited → swept hp0 (heap s) evs h) →
  (∀ key h, (key, h) ∈ entries →
     handles_has key (handles s) = true
     ∧ heap s !! h = hp0 !! h
     ∧ entry_ok hp0 (key, h) = true) →
  ∃ evs', trace (forEach_close entries during d s).2 = t0 ++ evs'
    ∧ ∀ h, h ∈ visited ++ entries.*2 →
        swept hp0 (heap (forEach_close entries during d s).2) evs' h.
Proof.
  induction entries as [|[key h] rest IH]; intros during visited d s evs Hnd Ht Hvis Hrest.
  { exists evs. simpl. rewrite app_nil_r. by split. }
  rewrite fmap_cons in Hnd. apply NoDup_cons in Hnd as [Hnotin Hnd].
  destruct (Hrest key h) as (Hhas & Hheap & Hentry); [by left|].
  cbn [forEach_close]. rewrite Hhas.
  destruct (visit_sweeps hp0 h d s Hheap (entry_ok_points _ _ Hentry)) as (evs1 & Ht1 & Hsw1).
  assert (Hstay : ∀ key' h', (key', h') ∈ rest →
            handles_has key' (handles (visit h d s).2) = true
            ∧ heap (visit h d s).2 !! h' = hp0 !! h').
  { intros key' h' Hin'. destruct (Hrest key' h') as (Hhas' & Hheap' & Hentry'); [by right|].
    assert (Hne : key' ≠ key).
    { intros ->. apply Hnotin. apply list_elem_of_fmap. by exists (key, h'). }
    split.
    - rewrite visit_has; [done|]. intros k Hk ->.
      assert (Hdel : ∀ k0, k0 ∈ deleted_by (heap s) h → k0 = key).
      { unfold deleted_by. rewrite Hheap. by apply entry_ok_deleted. }
      by apply Hdel in Hk.
    - destruct (visit_heap h d s h') as [->|[-> (k & ki & i & sn & hook & Hopen & _)]];
        [done|].
      exfalso. rewrite Hheap in Hopen.
      unfold entry_ok in Hentry, Hentry'. simpl in *. rewrite Hopen in Hentry, Hentry'.
      apply String.eqb_eq in Hentry, Hentry'. congruence. }
  assert (Hvis1 : ∀ hv, hv ∈ visited ++ [h] →
            swept hp0 (heap (visit h d s).2) (evs ++ evs1) hv).
  { intros hv Hin. apply elem_of_app in Hin as [Hin|Hin].
    - specialize (Hvis hv Hin). apply swept_more.
      destruct (visit_heap h d s hv) as [Hsame|[-> (k & ki & i & sn & hook & Hopen & Hclosed)]].
      + unfold swept in *. destruct (hp0 !! hv) as [[[c|[k|] ki i sn] [o|] hook]|];
          try done; by rewrite Hsame.
      + exfalso. rewrite Hheap in Hopen. unfold swept in Hvis. rewrite Hopen in Hvis.
        destruct Hvis as [_ Hv]. rewrite Hheap, Hopen in Hv. discriminate.
    - apply list_elem_of_singleton in Hin as ->. by apply swept_later. }
  destruct (visit h d s) as [d1 s1]. cbn [fst snd] in *.
  destruct (complete_all_trace (hd [] during) d1 s1) as (evs2 & Ht2).
  pose proof (complete_all_frame (hd [] during) d1 s1) as (Hhp2 & Hhs2 & _).
  destruct (complete_all (hd [] during) d1 s1) as [d2 s2]. cbn [fst snd] in *.
  rewrite fmap_cons. cbn [snd]. rewrite (cons_middle h), app_assoc.
  apply (IH (tail during) (visited ++ [h]) d2 s2 ((evs ++ evs1) ++ evs2)); [done| | |].
  - by rewrite Ht2, Ht1, Ht, <- !app_assoc.
  - intros hv Hin. rewrite Hhp2. apply swept_more. by apply Hvis1.
  - intros key' h' Hin'. rewrite Hhs2, Hhp2.
    destruct (Hstay key' h' Hin') as [? ?].
    destruct (Hrest key' h') as (_ & _ & ?); [by right|done].
Qed.

End Sweep.

(** X16. The sweep of a drain reaches every handle of a well-formed
    registry, of whatever kind and however the drain was entered. By the
    time [_disconnect] returns, for each registered handle: its owner's
    close has been called; or (no owner) the close messages of its
    wrappers have been sent, one per wrapper, and its native close has
    been called with the completion callback right after them; or (an
    open faux handle with no owner) its close message has been sent and
    its key is undefined; a faux handle with no owner that was closed
    before is left as it was. *)
Theorem sweep_reaches_every_handle (primaryInitiated : bool)
    (during : list (list HandleId)) (s : State) :
  registry_ok s = true →
  ∃ evs,
    trace (_disconnect primaryInitiated during s).2 = trace s ++ evs
    ∧ ∀ key h, (key, h) ∈ handles s →
        swept (heap s) (heap (_disconnect primaryInitiated during s).2) evs h.
Proof.
  intros Hok. apply registry_ok_spec in Hok as [Hnd Hall].
  destruct (forEach_close_sweeps (heap s) (trace s) (handles s) during []
              (mkDrain primaryInitiated 1 []) (with_exitedAfterDisconnect true s) [])
    as (evs & Ht & Hsw).
  - done.
  - simpl. by rewrite app_nil_r.
  - intros h Hin. by apply elem_of_nil in Hin.
  - intros key h Hin. split; [by eapply handles_has_elem|]. split; [done|by apply Hall].
  - unfold _disconnect. cbn [handles with_exitedAfterDisconnect] in *.
    destruct (forEach_close (handles s) during _ _) as [d1 s1]. cbn [fst snd] in *.
    destruct (checkWaitingCount_frame d1 (with_handles [] s1))
      as (_ & _ & Hhp & _ & _ & evs' & Ht').
    exists (evs ++ evs'). split.
    + rewrite Ht'. simpl. by rewrite Ht, <- app_assoc.
    + intros key h Hin. rewrite Hhp. simpl. apply swept_more. apply Hsw. simpl.
      apply list_elem_of_fmap. by exists (key, h).
Qed.

Lemma sweep_reaches_every_handle_witness :
  ∃ evs,
    trace (_disconnect false [] one_listener).2 = trace one_listener ++ evs
    ∧ ∀ key h, (key, h) ∈ handles one_listener →
        swept (heap one_listener) (heap (_disconnect false [] one_listener).2) evs h.
Proof.
  apply (sweep_reaches_every_handle false [] one_listener).
  vm_compute. reflexivity.
Defined.

(** ** How the shutdown paths compose *)

(** X17. The primary's [{ act: 'disconnect' }] runs the drain without
    touching the worker's [state]: afterwards the state is what it was,
    [exitedAfterDisconnect] is set and the registry is empty. So a
    worker that was not 'disconnecting' or 'destroying' still passes the
    guard of [disconnect()]: that call marks it 'disconnecting' and,
    finding nothing registered, sends exitedAfterDisconnect at once. *)
Theorem primary_disconnect_keeps_state (message : InMessage) (handle : HandleId)
    (during during' : list (list HandleId)) (later : list HandleId) (s : State) :
  act message = "disconnect" →
  state s ≠ "disconnecting" →
  state s ≠ "destroying" →
  ∃ d s1 d' s2,
    settle later ((onmessage message handle during s).1,
                  final (onmessage message handle during s).2) = (Some d, s1)
    ∧ state s1 = state s
    ∧ exitedAfterDisconnect s1 = true
    ∧ handles s1 = []
    ∧ Worker_disconnect during' s1 = (Some d', s2)
    ∧ state s2 = "disconnecting"
    ∧ waitingCount d' = 0%Z
    ∧ trace s2 = trace s1 ++ [EvSend MsgExitedAfterDisconnect (Some CbProcessDisconnect)].
Proof.
  intros Hact H1 H2.
  assert (E : onmessage message handle during s
              = (Some (_disconnect true during s).1, Returned (_disconnect true during s).2)).
  { unfold onmessage. rewrite Hact. cbn [String.eqb Ascii.eqb Bool.eqb].
    by destruct (_disconnect true during s). }
  rewrite E. cbn [fst snd final settle].
  destruct (_disconnect_worker true during later s) as (Hst & Hex & _ & Hhs).
  destruct (complete_all later _ _) as [d s1]. cbn [fst snd] in *.
  assert (Hrun : Worker_disconnect during' s1
            = (Some (mkDrain false 0 []),
               send MsgExitedAfterDisconnect (Some CbProcessDisconnect)
                 (with_handles [] (with_exitedAfterDisconnect true
                                     (with_state "disconnecting" s1))))).
  { rewrite Worker_disconnect_enters by congruence.
    unfold _disconnect. cbn [handles with_exitedAfterDisconnect with_state].
    rewrite Hhs. reflexivity. }
  eexists d, s1, _, _. split; [done|]. split; [done|]. split; [done|]. split; [done|].
  split; [exact Hrun|]. by repeat split.
Qed.

Lemma primary_disconnect_keeps_state_witness :
  ∃ d s1 d' s2,
    settle [0; 7] ((onmessage (mkInMessage "disconnect" "" 0) 0 [] two_listeners).1,
                   final (onmessage (mkInMessage "disconnect" "" 0) 0 [] two_listeners).2)
    = (Some d, s1)
    ∧ state s1 = state two_listeners
    ∧ exitedAfterDisconnect s1 = true
    ∧ handles s1 = []
    ∧ Worker_disconnect [] s1 = (Some d', s2)
    ∧ state s2 = "disconnecting"
    ∧ waitingCount d' = 0%Z
    ∧ trace s2 = trace s1 ++ [EvSend MsgExitedAfterDisconnect (Some CbProcessDisconnect)].
Proof.
  apply (primary_disconnect_keeps_state (mkInMessage "disconnect" "" 0) 0 [] [] [0; 7]
           two_listeners).
  - reflexivity.
  - vm_compute. discriminate.
  - vm_compute. discriminate.
Defined.

(** X18. [destroy()] is not held back by a drain in progress: its guard
    looks for 'destroying' only. On a connected worker that
    [disconnect()] has left 'disconnecting', at any point of the drain,
    [destroy()] marks the worker 'destroying' and sends
    exitedAfterDisconnect (again, if the drain had already sent it)
    with the transport disconnect as its continuation. *)
Theorem destroy_overrides_drain (during : list (list HandleId)) (later : list HandleId)
    (s : State) :
  state s ≠ "disconnecting" →
  state s ≠ "destroying" →
  connected s = true →
  ∃ d s1,
    settle later (Worker_disconnect during s) = (Some d, s1)
    ∧ state s1 = "disconnecting"
    ∧ state (Worker_destroy s1) = "destroying"
    ∧ trace (Worker_destroy s1)
      = trace s1 ++ [EvSend MsgExitedAfterDisconnect (Some CbProcessDisconnect);
                     EvOnceDisconnectExit].
Proof.
  intros H1 H2 Hconn. rewrite (Worker_disconnect_enters during s H1 H2). cbn [settle].
  destruct (_disconnect_worker false during later (with_state "disconnecting" s))
    as (Hst & _ & Hco & _).
  destruct (complete_all later _ _) as [d s1]. cbn [fst snd] in *.
  exists d, s1. split; [done|]. split; [done|].
  simpl in Hst, Hco. rewrite Hconn in Hco.
  unfold Worker_destroy, isConnected. rewrite Hst. simpl. rewrite Hco. simpl.
  split; [done|]. by rewrite <- app_assoc.
Qed.

Lemma destroy_overrides_drain_witness :
  ∃ d s1,
    settle [7; 0] (Worker_disconnect [] two_listeners) = (Some d, s1)
    ∧ state s1 = "disconnecting"
    ∧ state (Worker_destroy s1) = "destroying"
    ∧ trace (Worker_destroy s1)
      = trace s1 ++ [EvSend MsgExitedAfterDisconnect (Some CbProcessDisconnect);
                     EvOnceDisconnectExit].
Proof.
  apply (destroy_overrides_drain [] [7; 0] two_listeners).
  - vm_compute. discriminate.
  - vm_compute. discriminate.
  - reflexivity.
Defined.
